(** * device_config_extractor: credential probing and output parsing

    A shallow embedding of [src/device_config_extractor.py] and the
    properties its specification states about it.

    - Python [str] values are sequences of Unicode code points: [list N].
    - The built-ins the program calls ([str.strip], [str.splitlines],
      [in], [str.split], [re.search], [sorted], [str.join]) are modelled
      after CPython's behaviour on [str].
    - Exceptions are values: a computation returns [Ok v] or [Raised e].
    - The network (paramiko) is an arbitrary transition function on an
      abstract world; every [ssh_run] invocation is appended to a call log. *)

From Stdlib Require Import NArith Ascii String.
From stdpp Require Import base list gmap sets sorting strings.

Open Scope list_scope.

(** ** Python strings *)

Module PyStr.

#[local] Open Scope N_scope.

(** A Python [str]: its code points. *)
Abbreviation str := (list N).

(** A source literal, written as a Rocq string (ASCII only). *)
Definition py (s : string) : str :=
(λ a, N_of_ascii a) <$> list_ascii_of_string s.

Definition LF : N := 10.
Definition CR : N := 13.
Definition QUOTE : N := 34.

(** [Py_UNICODE_ISSPACE]: the characters [str.strip()] removes and the
  regular-expression class [\s] matches on [str] patterns. *)
Definition isspace (c : N) : bool :=
((9 <=? c) && (c <=? 13)) || ((28 <=? c) && (c <=? 32))
|| (c =? 133) || (c =? 160) || (c =? 5760)
|| ((8192 <=? c) && (c <=? 8202))
|| (c =? 8232) || (c =? 8233) || (c =? 8239) || (c =? 8287)
|| (c =? 12288).

(** [Py_UNICODE_ISLINEBREAK]: the line boundaries of [str.splitlines()]. *)
Definition islinebreak (c : N) : bool :=
((10 <=? c) && (c <=? 13)) || ((28 <=? c) && (c <=? 30))
|| (c =? 133) || (c =? 8232) || (c =? 8233).

(** Python truthiness of a [str]: [if s:] holds for non-empty [s]. *)
Definition truthy (s : str) : bool :=
match s with [] => false | _ :: _ => true end.

Fixpoint lstrip_by (p : N → bool) (s : str) : str :=
match s with
| [] => []
| c :: s' => if p c then lstrip_by p s' else s
end.

Definition strip_by (p : N → bool) (s : str) : str :=
reverse (lstrip_by p (reverse (lstrip_by p s))).

(** [s.strip()] *)
Definition strip (s : str) : str := strip_by isspace s.

(** [s.strip(q)] where [q] is the double-quote character. *)
Definition strip_quotes (s : str) : str := strip_by (N.eqb QUOTE) s.

(** [s.splitlines()]: split at line boundaries, [\r\n] counting as one;
  the breaks are dropped and a trailing break opens no further line. *)
Fixpoint splitlines (s : str) : list str :=
match s with
| [] => []
| c :: s' =>
    if islinebreak c then
      [] :: (if c =? CR then
               match s' with
               | c' :: s'' => if c' =? LF then splitlines s'' else splitlines s'
               | [] => []
               end
             else splitlines s')
    else
      match splitlines s' with
      | [] => [[c]]
      | l :: ls => (c :: l) :: ls
      end
end.

Fixpoint startswith (p s : str) : bool :=
match p, s with
| [], _ => true
| a :: p', b :: s' => (a =? b) && startswith p' s'
| _ :: _, [] => false
end.

(** [sub in s] *)
Fixpoint contains (sub s : str) : bool :=
startswith sub s
|| match s with [] => false | _ :: s' => contains sub s' end.

(** The first occurrence of [sep]: text before it and text after it. *)
Fixpoint partition (sep s : str) : option (str * str) :=
if startswith sep s then Some ([], drop (length sep) s)
else match s with
     | [] => None
     | c :: s' =>
         match partition sep s' with
         | Some (a, b) => Some (c :: a, b)
         | None => None
         end
     end.

(** [s.split(sep, 1)] for a non-empty [sep]. *)
Definition split1 (sep s : str) : list str :=
match partition sep s with
| Some (a, b) => [a; b]
| None => [s]
end.

(** [sep.join(l)] *)
Fixpoint join (sep : str) (l : list str) : str :=
match l with
| [] => []
| [x] => x
| x :: l' => x ++ sep ++ join sep l'
end.

(** Comparison of [str] values: lexicographic on code points. *)
Fixpoint str_ltb (a b : str) : bool :=
match a, b with
| _, [] => false
| [], _ :: _ => true
| x :: a', y :: b' => (x <? y) || ((x =? y) && str_ltb a' b')
end.

Definition str_le (a b : str) : Prop := str_ltb b a = false.
Definition str_lt (a b : str) : Prop := str_ltb a b = true.

Global Instance str_le_dec a b : Decision (str_le a b).
Proof. unfold str_le. apply _. Defined.

(** [sorted(s)] for a set of [str]: its elements in ascending order. *)
Definition sorted (s : gset str) : list str := merge_sort str_le (elements s).

End PyStr.
Export PyStr.

(** ** Regular expressions

    The fragment of [re] syntax the program's three patterns use, matched
    by backtracking with greedy quantifiers, as [re.search] does. *)

Module Re.

Inductive regex : Type :=
| Lit (l : str)            (* literal text *)
| Opt (c : N)              (* [c?] *)
| Plus (cls : N → bool)    (* [[class]+] *)
| Group (r : regex)        (* [( r )], the capture group *)
| Seq (r1 r2 : regex).

Section matcher.
Context {R : Type}.

(** One or more characters of [cls], the longest run first. *)
Fixpoint plus_from (cls : N → bool) (s : str) (k : str → option R) : option R :=
match s with
| [] => None
| c :: s' =>
    if cls c then
      match plus_from cls s' k with
      | Some r => Some r
      | None => k s'
      end
    else None
end.

(** [match_at r s g k]: match [r] at the head of [s]; [g] is the text
  captured so far, [k] receives the rest of the input. *)
Fixpoint match_at (r : regex) (s : str) (g : option str)
  (k : str → option str → option R) : option R :=
match r with
| Lit l => if startswith l s then k (drop (length l) s) g else None
| Opt c =>
    match s with
    | c' :: s' =>
        if (c' =? c)%N then
          match k s' g with
          | Some r => Some r
          | None => k s g
          end
        else k s g
    | [] => k s g
    end
| Plus cls => plus_from cls s (λ s', k s' g)
| Group r' =>
    match_at r' s g (λ s' _, k s' (Some (take (length s - length s') s)))
| Seq r1 r2 => match_at r1 s g (λ s' g', match_at r2 s' g' k)
end.
End matcher.

(** [re.search(r, s)]: the leftmost match; the result is the match
  object's [group(1)], which is [None] when the group took no part. *)
Fixpoint search (r : regex) (s : str) : option (option str) :=
match match_at r s None (λ _ g, Some g) with
| Some g => Some g
| None =>
    match s with
    | [] => None
    | _ :: s' => search r s'
    end
end.

End Re.

(** ** Exceptions

    The classes the program tells apart or raises itself. All are
    subclasses of [Exception]; [KeyboardInterrupt] and the like, which no
    handler of the program catches, are outside the model. *)

Inductive exn_class : Type :=
| AuthenticationException   (* paramiko.AuthenticationException *)
| RuntimeError
| IndexError
| AttributeError
| TypeError
| OtherException.           (* any other subclass of Exception *)

(** An exception with the text [str(e)] gives for it. *)
Record exn : Type := Exn { exn_cls : exn_class; exn_str : str }.

Inductive result (A : Type) : Type :=
| Ok (a : A)
| Raised (e : exn).
Arguments Ok {A} a.
Arguments Raised {A} e.

Definition result_bind {A B} (r : result A) (f : A → result B) : result B :=
  match r with
  | Ok a => f a
  | Raised e => Raised e
  end.

(** [l[i]] *)
Definition item {A} (l : list A) (i : nat) : result A :=
  match l !! i with
  | Some x => Ok x
  | None => Raised (Exn IndexError (py "list index out of range"))
  end.

(** [m.group(1)] used as a [str]: a group that took no part is [None],
    and the first [str] operation on it raises. *)
Definition group1 (cls : exn_class) (g : option str) : result str :=
  match g with
  | Some t => Ok t
  | None => Raised (Exn cls (py "NoneType"))
  end.

(** ** Output parser *)

Definition space (c : N) : bool := isspace c.
Definition not_space (c : N) : bool := negb (isspace c).
Definition not_quote_space (c : N) : bool := negb ((c =? QUOTE)%N || isspace c).

(** [set\s+name=([^\s]+)] *)
Definition RE_SET_NAME : Re.regex :=
  Re.Seq (Re.Lit (py "set"))
    (Re.Seq (Re.Plus space)
       (Re.Seq (Re.Lit (py "name=")) (Re.Group (Re.Plus not_space)))).

(** [ssid=q?([^q\s]+)q?], [q] the double quote *)
Definition RE_SSID : Re.regex :=
  Re.Seq (Re.Lit (py "ssid="))
    (Re.Seq (Re.Opt QUOTE)
       (Re.Seq (Re.Group (Re.Plus not_quote_space)) (Re.Opt QUOTE))).

(** [radio-name=q?([^q\s]+)q?] *)
Definition RE_RADIO_NAME : Re.regex :=
  Re.Seq (Re.Lit (py "radio-name="))
    (Re.Seq (Re.Opt QUOTE)
       (Re.Seq (Re.Group (Re.Plus not_quote_space)) (Re.Opt QUOTE))).

(** The [for] loop of [parse_identity]: [Some r] when it returns (or
    raises) [r] at some line, [None] when it runs to the end. *)
Fixpoint parse_identity_loop (lines : list str) : option (result str) :=
  match lines with
  | [] => None
  | line :: rest =>
      if contains (py "name:") line then
        Some (result_bind (item (split1 (py "name:") line) 1)
                (λ t, Ok (strip t)))
      else parse_identity_loop rest
  end.

Definition parse_identity (raw : str) : result str :=
  match parse_identity_loop (splitlines raw) with
  | Some r => r
  | None =>
      match Re.search RE_SET_NAME raw with
      | Some m =>
          result_bind (group1 AttributeError m)
            (λ g, Ok (strip_quotes (strip g)))
      | None => Ok []
      end
  end.

(** [if marker in line: m = re.search(pat, line); if m: s.add(m.group(1))].
    A [None] in the set would make the final [join] raise [TypeError]. *)
Definition collect (marker : str) (pat : Re.regex) (line : str)
    (s : gset str) : result (gset str) :=
  if contains marker line then
    match Re.search pat line with
    | Some m => result_bind (group1 TypeError m) (λ g, Ok ({[g]} ∪ s))
    | None => Ok s
    end
  else Ok s.

Fixpoint parse_wireless_loop (lines : list str) (ssids radios : gset str)
    : result (gset str * gset str) :=
  match lines with
  | [] => Ok (ssids, radios)
  | line :: rest =>
      result_bind (collect (py "ssid=") RE_SSID line ssids) (λ ssids',
      result_bind (collect (py "radio-name=") RE_RADIO_NAME line radios) (λ radios',
      parse_wireless_loop rest ssids' radios'))
  end.

Definition parse_wireless (raw : str) : result (str * str) :=
  result_bind (parse_wireless_loop (splitlines raw) ∅ ∅) (λ '(ssids, radios),
  Ok (join (py ";") (sorted ssids), join (py ";") (sorted radios))).

(** ** Configuration *)

Definition COMMAND_IDENTITY : str := py "/system identity print".
Definition COMMAND_WIRELESS : str :=
  py "/interface wireless print detail without-paging".
Definition COMMAND_WIRELESS_ALT : str :=
  py "/interface wifiwave2 print detail without-paging".
Definition COMMAND_EXPORT : str := py "/export terse".

Abbreviation credential := (str * str)%type.

Definition CREDENTIALS : list credential :=
  [ (py "admin", py "kol5ara");
    (py "admin", py "Admin");
    (py "admin", py "ADmin");
    (py "admin", py "admin") ].

(** ** Session client, credential prober, orchestrator *)

(** [process_ip]'s test on a line of the export:
    the line contains [ssid=] or [radio-name=]. *)
Definition marked (line : str) : bool :=
  contains (py "ssid=") line || contains (py "radio-name=") line.

(** One invocation of [ssh_run]. *)
Record call : Type := Call {
  call_ip : str;
  call_username : str;
  call_password : str;
  call_command : str
}.

Definition call_credential (c : call) : credential :=
  (call_username c, call_password c).

(** The per-address result ([process_ip]'s dictionary), [seconds] left
    abstract. *)
Record DeviceRecord (Seconds : Type) : Type := Record_ {
  ip : str;
  status : str;
  username : str;
  password : str;
  system_identity : str;
  ssids : str;
  radio_names : str;
  error : str;
  seconds : Seconds
}.
Arguments Record_ {Seconds}.
Arguments ip {Seconds}.
Arguments status {Seconds}.
Arguments username {Seconds}.
Arguments password {Seconds}.
Arguments system_identity {Seconds}.
Arguments ssids {Seconds}.
Arguments radio_names {Seconds}.
Arguments error {Seconds}.
Arguments seconds {Seconds}.

(** What one worker observes and does: the world it talks to and the
    [ssh_run] invocations it has made so far. *)
Record state (World : Type) : Type := State {
  world : World;
  calls : list call
}.
Arguments State {World}.
Arguments world {World}.
Arguments calls {World}.

Section Extractor.
Variable World : Type.

(** paramiko: connect with the credential, run the command, read and
    decode both streams. Yields [(out, err)] or raises; the world moves
    on either way. Nothing is assumed about it. *)
Variable remote : World → call → result (str * str) * World.

Variable Seconds : Type.
(** [time.time()] *)
Variable time_time : World → Seconds.
(** [round(t1 - t0, 2)] *)
Variable round_diff : Seconds → Seconds → Seconds.

Definition M (A : Type) : Type := state World → result A * state World.

Definition ret {A} (a : A) : M A := λ st, (Ok a, st).
Definition raise {A} (e : exn) : M A := λ st, (Raised e, st).
Definition bind {A B} (m : M A) (f : A → M B) : M B := λ st,
  match m st with
  | (Ok a, st') => f a st'
  | (Raised e, st') => (Raised e, st')
  end.
(** [try: m / except Exception as e: h e] *)
Definition try_except {A} (m : M A) (h : exn → M A) : M A := λ st,
  match m st with
  | (Ok a, st') => (Ok a, st')
  | (Raised e, st') => h e st'
  end.
Definition lift {A} (r : result A) : M A := λ st, (r, st).

#[local] Notation "x <- m ;; k" := (bind m (λ x, k))
  (at level 100, m at next level, right associativity).

Definition ssh_run (ip username password command : str) : M str := λ st,
  let c := Call ip username password command in
  let '(r, w') := remote (world st) c in
  (result_bind r (λ '(out, err),
     Ok (if truthy (strip out) then out else err)),
   State w' (calls st ++ [c])).

(** The body of the [try] in [try_credentials], for one credential. *)
Definition attempt (ip user pwd : str)
    : M (option credential * gmap str str * str) :=
  identity_raw <- ssh_run ip user pwd COMMAND_IDENTITY;;
  _ <- (if truthy identity_raw then ret ()
       else raise (Exn RuntimeError (py "Empty response")));;
  let outputs : gmap str str := {[ py "identity" := identity_raw ]} in
  wireless_raw <- try_except (ssh_run ip user pwd COMMAND_WIRELESS)
                    (λ _, ret []);;
  wireless_raw <- (if truthy wireless_raw then ret wireless_raw
                  else try_except (ssh_run ip user pwd COMMAND_WIRELESS_ALT)
                         (λ _, ret []));;
  let outputs := <[ py "wireless" := wireless_raw ]> outputs in
  ret (Some (user, pwd), outputs, []).

(** The [for] loop of [try_credentials] over the credentials still to
    try; [last_error] is the local variable, [None] while unbound. *)
Fixpoint try_credentials_from (creds : list credential) (ip : str)
    (last_error : option str)
    : M (option credential * gmap str str * str) :=
  match creds with
  | [] => ret (None, ∅, default (py "Auth/connection failed") last_error)
  | (user, pwd) :: rest =>
      try_except (attempt ip user pwd) (λ e,
        match exn_cls e with
        | AuthenticationException => try_credentials_from rest ip last_error
        | _ => try_credentials_from rest ip (Some (exn_str e))
        end)
  end.

Definition try_credentials (ip : str)
    : M (option credential * gmap str str * str) :=
  try_credentials_from CREDENTIALS ip None.

(** The export lines [process_ip] appends to [wireless_raw]. *)
Definition append_marked (wireless_raw : str) (lines : list str) : str :=
  foldl (λ acc line, if marked line then acc ++ [LF] ++ line else acc)
        wireless_raw lines.

Definition process_ip (ip : str) : M (DeviceRecord Seconds) :=
  start <- (λ st, (Ok (time_time (world st)), st));;
  probe <- try_credentials ip;;
  let '(cred, outputs, error) := probe in
  now <- (λ st, (Ok (time_time (world st)), st));;
  let duration := round_diff now start in
  match cred with
  | None =>
      ret (Record_ ip (py "FAIL") [] [] [] [] [] error duration)
  | Some cred =>
      let identity_raw := default [] (outputs !! py "identity") in
      let wireless_raw := default [] (outputs !! py "wireless") in
      wireless_raw <-
        (if truthy wireless_raw then ret wireless_raw
         else
           export_raw <- try_except
                          (ssh_run ip cred.1 cred.2 COMMAND_EXPORT)
                          (λ _, ret []);;
           ret (if truthy export_raw
                then append_marked wireless_raw (splitlines export_raw)
                else wireless_raw));;
      system_identity <- lift (parse_identity identity_raw);;
      parsed <- lift (parse_wireless wireless_raw);;
      let '(ssids, radios) := parsed in
      ret (Record_ ip (py "OK") cred.1 cred.2 system_identity ssids radios
             [] duration)
  end.

(** *** Address loading and the worker pool *)

(** [re.search] for the first IPv4-like token of a cell, and whether
    [ipaddress.ip_address] accepts it. *)
Variable ip_like_token : str → option str.
Variable ip_address_ok : str → bool.

(** The loop of [load_ip_list] over the cells of the column. *)
Definition load_ip_list (series : list str) : list str :=
  foldl (λ ips val,
           match ip_like_token val with
           | None => ips
           | Some candidate =>
               if ip_address_ok candidate then
                 if decide (candidate ∈ ips) then ips else ips ++ [candidate]
               else ips
           end)
        [] series.

(** [pool.map(f, ips)]: one task per address, results in input order.
    The tasks run concurrently; [view i] is the world as task [i]
    meets it. *)
Definition pool_map {A} (f : str → M A) (ips : list str)
    (view : nat → World) : list (result A) :=
  imap (λ i ip, (f ip (State (view i) [])).1) ips.

(** [for res in ...: results.append(res)]; a task's exception is
    raised again when its result is consumed. *)
Fixpoint gather {A} (rs : list (result A)) (results : list A)
    : result (list A) :=
  match rs with
  | [] => Ok results
  | Ok res :: rs' => gather rs' (results ++ [res])
  | Raised e :: _ => Raised e
  end.

(** The [results] list of [main]. *)
Definition main_results (series : list str) (view : nat → World)
    : result (list (DeviceRecord Seconds)) :=
  gather (pool_map process_ip (load_ip_list series) view) [].

(** *** Vocabulary of the properties below *)

Definition identity_call (ip : str) (c : credential) : call :=
  Call ip c.1 c.2 COMMAND_IDENTITY.

(** The wireless commands, run once the identity reply is in: the
    resolved wireless text and the state they leave. *)
Definition wireless_phase (ip user pwd : str) (st : state World)
    : str * state World :=
  let '(r1, st1) := ssh_run ip user pwd COMMAND_WIRELESS st in
  let w1 := match r1 with Ok x => x | Raised _ => [] end in
  if truthy w1 then (w1, st1)
  else
    let '(r2, st2) := ssh_run ip user pwd COMMAND_WIRELESS_ALT st1 in
    (match r2 with Ok x => x | Raised _ => [] end, st2).

(** The [outputs] dictionary of an authenticated probe. *)
Definition probe_outputs (identity_raw wireless_raw : str) : gmap str str :=
  <[ py "wireless" := wireless_raw ]> {[ py "identity" := identity_raw ]}.

(** A reply to the identity command that does not authenticate. *)
Definition rejected (r : result str) : Prop :=
  match r with
  | Ok x => x = []
  | Raised _ => True
  end.

(** An explicit authentication rejection. *)
Definition auth_error (r : result str) : Prop :=
  match r with
  | Ok _ => False
  | Raised e => exn_cls e = AuthenticationException
  end.

(** The failure message a rejected reply stands for. *)
Definition failure_message (r : result str) : str :=
  match r with
  | Ok _ => py "Empty response"
  | Raised e => exn_str e
  end.

(** [last_error] after one rejected reply. *)
Definition record_error (last_error : option str) (r : result str)
    : option str :=
  match r with
  | Ok _ => Some (py "Empty response")
  | Raised e =>
      match exn_cls e with
      | AuthenticationException => last_error
      | _ => Some (exn_str e)
      end
  end.

(** The replies to the identity command when the credentials are
    tried one after the other, and the state this leaves. *)
Fixpoint identity_replies (creds : list credential) (ip : str)
    (st : state World) : list (result str) :=
  match creds with
  | [] => []
  | (user, pwd) :: rest =>
      let '(r, st') := ssh_run ip user pwd COMMAND_IDENTITY st in
      r :: identity_replies rest ip st'
  end.

Fixpoint after_identities (creds : list credential) (ip : str)
    (st : state World) : state World :=
  match creds with
  | [] => st
  | (user, pwd) :: rest =>
      after_identities rest ip (ssh_run ip user pwd COMMAND_IDENTITY st).2
  end.

(** The text the export command leaves ([''] when it raises), and what
    of it reaches the wireless parser. *)
Definition export_text (ip user pwd : str) (st : state World) : str :=
  match (ssh_run ip user pwd COMMAND_EXPORT st).1 with
  | Ok t => t
  | Raised _ => []
  end.

Definition fallback_text (ip user pwd : str) (st : state World) : str :=
  concat ((λ l, LF :: l) <$> filter (λ l, marked l = true)
                               (splitlines (export_text ip user pwd st))).

Definition elapsed (st st1 : state World) : Seconds :=
  round_diff (time_time (world st1)) (time_time (world st)).

End Extractor.

Arguments M World A : clear implicits.
Arguments ret {World A} a st.
Arguments raise {World A} e st.
Arguments bind {World A B} m f st.
Arguments try_except {World A} m h st.
Arguments lift {World A} r st.
Arguments ssh_run {World} remote ip username password command st.
Arguments attempt {World} remote ip user pwd.
Arguments try_credentials_from {World} remote creds ip last_error.
Arguments try_credentials {World} remote ip.
Arguments process_ip {World} remote {Seconds} time_time round_diff ip.
Arguments pool_map {World A} f ips view.
Arguments main_results {World} remote {Seconds} time_time round_diff
  ip_like_token ip_address_ok series view.
Arguments identity_call ip c /.
Arguments wireless_phase {World} remote ip user pwd st.
Arguments identity_replies {World} remote creds ip st.
Arguments after_identities {World} remote creds ip st.
Arguments export_text {World} remote ip user pwd st.
Arguments fallback_text {World} remote ip user pwd st.
Arguments elapsed {World Seconds} time_time round_diff st st1.

(** ** Vocabulary of the string and pattern lemmas *)

Definition nobreak (l : str) : Prop := Forall (λ c, islinebreak c = false) l.

(** The continuation [re.search] ends a match with. *)
Definition accept : str → option str → option (option str) := λ _ g, Some g.

(** The shape shared by [RE_SSID] and [RE_RADIO_NAME]. *)
Definition quoted_or_bare (marker : str) : Re.regex :=
  Re.Seq (Re.Lit marker)
    (Re.Seq (Re.Opt QUOTE)
       (Re.Seq (Re.Group (Re.Plus not_quote_space)) (Re.Opt QUOTE))).

(** The capture of [quoted_or_bare], matched at the head of [s]. *)
Definition token_after (s : str) : option (option str) :=
  Re.plus_from not_quote_space s
    (λ s', Some (Some (take (length s - length s') s))).

(** The tokens the lines contribute for one marker and its pattern. *)
Definition tokens_of (marker : str) (pat : Re.regex) (lines : list str)
    (t : str) : Prop :=
  ∃ line, line ∈ lines ∧ contains marker line = true
          ∧ Re.search pat line = Some (Some t).

(** ** Sample devices

    Concrete worlds (no state of their own) used to run the program. *)

Definition SAMPLE_IP : str := py "10.0.0.1".

(** Rejects every login. *)
Definition rejecting_device (w : unit) (c : call)
    : result (str * str) * unit :=
  (Raised (Exn AuthenticationException (py "Authentication failed.")), w).

(** Accepts every login and prints nothing on either stream. *)
Definition silent_device (w : unit) (c : call) : result (str * str) * unit :=
  (Ok ([], []), w).

(** Prints one blank on standard output and a message on standard error. *)
Definition blank_device (w : unit) (c : call) : result (str * str) * unit :=
  (Ok (py " ", py "bad command name"), w).

(** Times out for every password but [Admin]; then prints its identity,
    no wireless listing, and an export with one wireless line. *)
Definition export_only_device (w : unit) (c : call)
    : result (str * str) * unit :=
  (if bool_decide (call_password c = py "Admin") then
     if bool_decide (call_command c = COMMAND_IDENTITY) then
       Ok (py "name: R1", [])
     else if bool_decide (call_command c = COMMAND_EXPORT) then
       Ok (py "/interface wireless set radio-name=abc ssid=foo", [])
     else Ok ([], [])
   else Raised (Exn OtherException (py "timed out")), w).

(** A clock that stands still, with whole seconds. *)
Definition still_clock (w : unit) : nat := 0.
Definition nat_diff (t1 t0 : nat) : nat := t1 - t0.

(** Accepts every login; prints its identity and a wireless listing. *)
Definition listing_device (w : unit) (c : call) : result (str * str) * unit :=
  (if bool_decide (call_command c = COMMAND_IDENTITY) then
     Ok (py "name: R2", [])
   else Ok (py "0 ssid=lab radio-name=r2", []), w).

(** ** The rest of the extractor: reports, merge back, column letters *)

(** What [main] writes: the three sheets of the output workbook and, when
    some address failed, the text of the failed-address list. *)
Record Report (Seconds : Type) : Type := Report_ {
  sheet_results : list (DeviceRecord Seconds);
  sheet_success : list (DeviceRecord Seconds);
  sheet_failed : list (DeviceRecord Seconds);
  failed_list_txt : option str
}.
Arguments Report_ {Seconds}.
Arguments sheet_results {Seconds}.
Arguments sheet_success {Seconds}.
Arguments sheet_failed {Seconds}.
Arguments failed_list_txt {Seconds}.

(** [main] from [df = pd.DataFrame(results)] to the failed list. A frame
    built from no record has no column, and [df['status']] raises
    [KeyError]. *)
Definition main_report {Seconds} (results : list (DeviceRecord Seconds))
    : result (Report Seconds) :=
  match results with
  | [] => Raised (Exn OtherException (py "'status'"))
  | _ :: _ =>
      let failed_ips := ip <$> filter (λ r, status r ≠ py "OK") results in
      Ok (Report_ results
            (filter (λ r, status r = py "OK") results)
            (filter (λ r, status r ≠ py "OK") results)
            (match failed_ips with
             | [] => None
             | _ :: _ => Some (join [LF] failed_ips)
             end))
  end.

Section Main.
Context {World : Type}.
Variable remote : World → call → result (str * str) * World.
Context {Seconds : Type}.
Variable time_time : World → Seconds.
Variable round_diff : Seconds → Seconds → Seconds.
Variable ip_like_token : str → option str.
Variable ip_address_ok : str → bool.

(** [main] up to the failed list. The merge back that follows is wrapped
  in [try]/[except Exception] and cannot change the outcome. *)
Definition main (series : list str) (view : nat → World)
  : result (Report Seconds) :=
result_bind
  (main_results remote time_time round_diff ip_like_token ip_address_ok
     series view)
  main_report.

End Main.

(** The seven result columns [merge_results_into_source] fills; [Cell]
    is whatever a cell of the workbook holds. *)
Record ResultColumns (Cell : Type) : Type := Columns {
  ssh_status : Cell;
  ssh_username : Cell;
  ssh_password : Cell;
  col_system_identity : Cell;
  wireless_ssids : Cell;
  col_radio_names : Cell;
  ssh_error : Cell
}.
Arguments Columns {Cell}.
Arguments ssh_status {Cell}.
Arguments ssh_username {Cell}.
Arguments ssh_password {Cell}.
Arguments col_system_identity {Cell}.
Arguments wireless_ssids {Cell}.
Arguments col_radio_names {Cell}.
Arguments ssh_error {Cell}.

Section Workbook.
Context {Seconds Cell : Type}.

(** A text stored in a cell. *)
Variable text_cell : str → Cell.

(** The first IPv4-like token of a cell ([re.search], as in
  [load_ip_list]). *)
Variable ip_like_token : str → option str.

(** A row of the source workbook, as far as the merge looks at it: the
  address cell as [astype(str)] leaves it, and the result columns. The
  column is read without [dropna]: depending on the pandas version an
  empty cell is by then the text [nan] or still a missing value, [None]
  here. *)
Definition workbook_row : Type := option str * ResultColumns Cell.

(** [{row['ip']: row for row in records}] *)
Definition result_map (results : list (DeviceRecord Seconds))
  : gmap str (DeviceRecord Seconds) :=
foldl (λ m row, <[ip row := row]> m) ∅ results.

Definition columns_of (data : DeviceRecord Seconds) : ResultColumns Cell :=
Columns (text_cell (status data)) (text_cell (username data))
  (text_cell (password data)) (text_cell (system_identity data))
  (text_cell (ssids data)) (text_cell (radio_names data))
  (text_cell (error data)).

(** [re.search(pattern, cell)]: a cell that is not text raises
  [TypeError]. *)
Definition search_cell (cell : option str) : result (option str) :=
match cell with
| Some text => Ok (ip_like_token text)
| None =>
    Raised (Exn TypeError
              (py "expected string or bytes-like object, got 'float'"))
end.

(** The body of the loop over the address column; [data] is a record,
  never empty, so [if not data] is the test for a missing key. *)
Definition merge_row (m : gmap str (DeviceRecord Seconds))
  (row : workbook_row) : result workbook_row :=
result_bind (search_cell row.1) (λ found,
  match found with
  | None => Ok row
  | Some a =>
      match m !! a with
      | None => Ok row
      | Some data => Ok (row.1, columns_of data)
      end
  end).

(** The loop over the rows, first to last; an exception leaves it. *)
Fixpoint merge_loop (m : gmap str (DeviceRecord Seconds))
  (rows : list workbook_row) : result (list workbook_row) :=
match rows with
| [] => Ok []
| row :: rest =>
    result_bind (merge_row m row) (λ row',
    result_bind (merge_loop m rest) (λ rest', Ok (row' :: rest')))
end.

(** The rows [merge_results_into_source] writes back with [to_excel];
  when the loop raises nothing is written. *)
Definition merge_rows (results : list (DeviceRecord Seconds))
  (rows : list workbook_row) : result (list workbook_row) :=
merge_loop (result_map results) rows.

End Workbook.

(** Result columns holding nothing yet. *)
Definition blank_columns : ResultColumns str := Columns [] [] [] [] [] [] [].

Section ColumnLetter.

(** [str.upper] *)
Variable str_upper : str → str.

(** [ord(s)]: defined on one-character strings only. *)
Definition ord (s : str) : result Z :=
match s with
| [c] => Ok (Z.of_N c)
| _ => Raised (Exn TypeError (py "ord() expected a character"))
end.

Definition column_letter_to_index (letter : str) : result Z :=
let letter := str_upper letter in
result_bind (ord letter) (λ n, Ok (n - 65)%Z).

End ColumnLetter.

(** [str.upper] on an ASCII character. *)
Definition ascii_upper (c : N) : N :=
  if ((97 <=? c) && (c <=? 122))%N then (c - 32)%N else c.

Section IpLike.

(** The class [\d] of the pattern: the Unicode decimal digits. *)
Variable isdigit : N → bool.

(** [(\d+\.\d+\.\d+\.\d+)] *)
Definition RE_IP_LIKE : Re.regex :=
Re.Group
  (Re.Seq (Re.Plus isdigit) (Re.Seq (Re.Lit (py "."))
  (Re.Seq (Re.Plus isdigit) (Re.Seq (Re.Lit (py "."))
  (Re.Seq (Re.Plus isdigit) (Re.Seq (Re.Lit (py "."))
  (Re.Plus isdigit))))))).

(** Four runs of digits separated by dots. *)
Inductive dotted_quad : str → Prop :=
| Dotted_quad d1 d2 d3 d4 :
  d1 ≠ [] → d2 ≠ [] → d3 ≠ [] → d4 ≠ [] →
  Forall (λ c, isdigit c = true) (d1 ++ d2 ++ d3 ++ d4) →
  dotted_quad (d1 ++ py "." ++ d2 ++ py "." ++ d3 ++ py "." ++ d4).

(** [m = re.search(...)], then [m.group(1)] when there is a match. *)
Definition ip_like (val : str) : option str :=
match Re.search RE_IP_LIKE val with
| Some (Some candidate) => Some candidate
| _ => None
end.

End IpLike.

(** ASCII digits, a sample of the class [\d]. *)
Definition ascii_digit (c : N) : bool := ((48 <=? c) && (c <=? 57))%N.

(** ** [matching_pipeline.normalize_phone_number] *)

(** The characters [re.sub] with [[^0-9+]] keeps. *)
Definition digit_or_plus (c : N) : bool := ascii_digit c || (c =? 43)%N.

(** [normalize_phone_number(raw, default_country)] for a [str] argument. *)
Definition normalize_phone_number (raw default_country : str) : str :=
  if truthy raw then
    let s := filter (λ c, digit_or_plus c = true) raw in
    if startswith (py "+") s then s
    else if startswith (py "00") s then py "+" ++ drop 2 s
    else default_country ++ lstrip_by (N.eqb 48) s
  else [].

Definition DEFAULT_COUNTRY : str := py "+961".

(** * Properties *)

(** ** Strings *)

Lemma startswith_spec p s : startswith p s = true ↔ ∃ b, s = p ++ b.
Proof.
  revert s. induction p as [|a p IH]; intros s; simpl.
  - split; eauto.
  - destruct s as [|b s]; simpl.
    + split; [done | intros [? ?]; done].
    + rewrite andb_true_iff, N.eqb_eq, IH. split.
      * intros [-> [t ->]]. eauto.
      * intros [t Ht]. injection Ht as -> ->. eauto.
Qed.

Lemma startswith_app p b : startswith p (p ++ b) = true.
Proof. apply startswith_spec. eauto. Qed.

Lemma contains_spec sub s : contains sub s = true ↔ ∃ a b, s = a ++ sub ++ b.
Proof.
  induction s as [|c s IH]; simpl.
  - rewrite orb_false_r, startswith_spec. split.
    + intros [b Hb]. exists [], b. done.
    + intros (a & b & H). symmetry in H.
      apply app_eq_nil in H as [-> H]. exists b. done.
  - rewrite orb_true_iff, startswith_spec, IH. split.
    + intros [[b Hb] | (a & b & ->)].
      * exists [], b. done.
      * exists (c :: a), b. done.
    + intros (a & b & H). destruct a as [|c' a]; simpl in H.
      * left. eauto.
      * injection H as -> ->. right. eauto.
Qed.

Lemma contains_false_app sub a b :
  contains sub (a ++ b) = false → contains sub a = false ∧ contains sub b = false.
Proof.
  intros H. split; apply not_true_is_false; intros Hc;
    apply contains_spec in Hc as (x & y & ->);
    apply not_true_iff_false in H; apply H, contains_spec.
  - exists x, (y ++ b). by rewrite <- !app_assoc.
  - exists (a ++ x), y. by rewrite <- !app_assoc.
Qed.

Lemma contains_false_sub sub a s b :
  contains sub (a ++ s ++ b) = false → contains sub s = false.
Proof.
  intros H. apply contains_false_app in H as [_ H].
  by apply contains_false_app in H as [H _].
Qed.

Lemma partition_unfold sep s :
  partition sep s =
    if startswith sep s then Some ([], drop (length sep) s)
    else match s with
         | [] => None
         | c :: s' =>
             match partition sep s' with
             | Some (a, b) => Some (c :: a, b)
             | None => None
             end
         end.
Proof. by destruct s. Qed.

(** [partition] finds the first occurrence. *)
Lemma partition_first sep a b :
  (∀ a' b', a ++ sep ++ b = a' ++ sep ++ b' → length a ≤ length a') →
  partition sep (a ++ sep ++ b) = Some (a, b).
Proof.
  induction a as [|c a IH]; intros Hfirst; rewrite partition_unfold.
  - simpl. rewrite startswith_app. by rewrite drop_app_length.
  - destruct (startswith sep ((c :: a) ++ sep ++ b)) eqn:Hs.
    + apply startswith_spec in Hs as [t Ht].
      specialize (Hfirst [] t Ht). simpl in Hfirst. lia.
    + simpl. rewrite IH; [done|]. intros a' b' Heq.
      specialize (Hfirst (c :: a') b'). simpl in Hfirst.
      rewrite Heq in Hfirst. specialize (Hfirst eq_refl). lia.
Qed.

Lemma partition_contains sep s :
  contains sep s = true → is_Some (partition sep s).
Proof.
  induction s as [|c s IH]; simpl.
  - rewrite orb_false_r. intros ->. eauto.
  - destruct (startswith sep (c :: s)); [eauto|]. simpl. intros H.
    destruct (IH H) as [[a b] ->]. eauto.
Qed.

(** [lstrip_by] and [strip_by] *)

Lemma lstrip_by_nil p s : lstrip_by p s = [] ↔ Forall (λ c, p c = true) s.
Proof.
  induction s as [|c s IH]; simpl.
  - split; auto.
  - destruct (p c) eqn:Hc.
    + rewrite IH. split; [by constructor | by inversion 1].
    + split; [done | inversion 1; congruence].
Qed.

Lemma strip_by_nil p s : strip_by p s = [] ↔ Forall (λ c, p c = true) s.
Proof.
  unfold strip_by. split.
  - intros H. apply lstrip_by_nil.
    apply (f_equal reverse) in H. rewrite reverse_involutive in H.
    change (reverse []) with (@nil N) in H.
    apply lstrip_by_nil in H.
    destruct (lstrip_by p s) as [|c t] eqn:Hl; [done|].
    exfalso. rewrite reverse_cons in H.
    apply Forall_app in H as [_ H]. inversion H as [|? ? Hc _]; subst.
    clear -Hl Hc. induction s as [|d s IH]; simpl in Hl; [done|].
    destruct (p d) eqn:Hd; [auto|]. injection Hl as -> ->. congruence.
  - intros H. apply lstrip_by_nil in H. by rewrite H.
Qed.

Lemma lstrip_by_id p s :
  Forall (λ c, p c = false) s → lstrip_by p s = s.
Proof. destruct 1 as [|c s Hc _]; simpl; [done|]. by rewrite Hc. Qed.

Lemma strip_by_id p s :
  Forall (λ c, p c = false) s → strip_by p s = s.
Proof.
  intros H. unfold strip_by. rewrite (lstrip_by_id p s H).
  rewrite lstrip_by_id; [apply reverse_involutive|].
  by apply Forall_reverse.
Qed.

Lemma truthy_true s : truthy s = true ↔ s ≠ [].
Proof. destruct s; simpl; split; done. Qed.

Lemma truthy_false s : truthy s = false ↔ s = [].
Proof. destruct s; simpl; split; done. Qed.

(** [splitlines] *)

Lemma splitlines_nil s : splitlines s = [] → s = [].
Proof.
  destruct s as [|c s]; [done|]. simpl.
  destruct (islinebreak c); [done|]. by destruct (splitlines s).
Qed.

(** The first line, the break that ends it, and the text left. *)
Lemma splitlines_head s l ls :
  splitlines s = l :: ls →
  ∃ brk rest, s = l ++ brk ++ rest ∧ ls = splitlines rest ∧ nobreak l
              ∧ (length rest < length s)%nat.
Proof.
  revert l ls. induction s as [|c s IH]; intros l ls; [done|]. simpl.
  destruct (islinebreak c) eqn:Hc.
  - intros H. injection H as <- <-.
    destruct (c =? CR)%N; [destruct s as [|c' s']; [|destruct (c' =? LF)%N]|].
    + exists [c], []. repeat split; [constructor | simpl; lia].
    + exists [c; c'], s'. repeat split; [constructor | simpl; lia].
    + exists [c], (c' :: s'). repeat split; [constructor | simpl; lia].
    + exists [c], s. repeat split; [constructor | simpl; lia].
  - destruct (splitlines s) as [|l' ls'] eqn:Hs.
    + intros H. injection H as <- <-. apply splitlines_nil in Hs as ->.
      exists [], []. repeat split; [by repeat constructor | simpl; lia].
    + intros H. injection H as <- <-.
      destruct (IH l' ls' eq_refl) as (brk & rest & -> & -> & Hl & Hlen).
      exists brk, rest. repeat split; [by constructor | simpl; lia].
Qed.

Lemma splitlines_sub line s :
  line ∈ splitlines s → ∃ a b, s = a ++ line ++ b.
Proof.
  revert line. induction s as [s IH] using (induction_ltof1 _ length).
  unfold ltof in IH. intros line Hin.
  destruct (splitlines s) as [|l ls] eqn:Hs; [by apply elem_of_nil in Hin|].
  apply splitlines_head in Hs as (brk & rest & -> & -> & _ & Hlen).
  apply elem_of_cons in Hin as [-> | Hin].
  - exists [], (brk ++ rest). done.
  - apply IH in Hin as (a & b & ->); [|done].
    exists (l ++ brk ++ a), b. by rewrite <- !app_assoc.
Qed.

Lemma splitlines_nobreak line s : line ∈ splitlines s → nobreak line.
Proof.
  revert line. induction s as [s IH] using (induction_ltof1 _ length).
  unfold ltof in IH. intros line Hin.
  destruct (splitlines s) as [|l ls] eqn:Hs; [by apply elem_of_nil in Hin|].
  apply splitlines_head in Hs as (brk & rest & -> & -> & Hl & Hlen).
  apply elem_of_cons in Hin as [-> | Hin]; [done|]. by apply (IH rest).
Qed.

(** A marker absent from the text is absent from each of its lines. *)
Lemma contains_line sub line s :
  contains sub s = false → line ∈ splitlines s → contains sub line = false.
Proof.
  intros Hs Hin. apply splitlines_sub in Hin as (a & b & ->).
  by apply contains_false_sub in Hs.
Qed.

Lemma splitlines_line_LF l rest :
  nobreak l → splitlines (l ++ LF :: rest) = l :: splitlines rest.
Proof.
  induction 1 as [|c l Hc Hl IH]; [done|]. simpl.
  rewrite Hc. unfold nobreak in IH. by rewrite IH.
Qed.

Lemma splitlines_single l : nobreak l → l ≠ [] → splitlines l = [l].
Proof.
  induction 1 as [|c l Hc Hl IH]; [done|]. intros _. simpl. rewrite Hc.
  destruct l as [|d l]; [done|]. unfold nobreak in IH. by rewrite IH.
Qed.

(** ** Regular expressions *)

Section plus_from.
Context {R : Type}.
Implicit Types (k : str → option R) (cls : N → bool).

Lemma plus_from_inv cls s k r :
  Re.plus_from cls s k = Some r →
  ∃ t s', s = t ++ s' ∧ t ≠ [] ∧ Forall (λ c, cls c = true) t ∧ k s' = Some r.
Proof.
  induction s as [|c s IH]; simpl; [done|].
  destruct (cls c) eqn:Hc; [|done].
  destruct (Re.plus_from cls s k) as [r'|] eqn:E.
  - intros [= ->]. destruct (IH eq_refl) as (t & s' & -> & _ & Ht & Hk).
    exists (c :: t), s'. repeat split; [done | by constructor | done].
  - intros Hk. exists [c], s. repeat split; [done | by repeat constructor | done].
Qed.

(** The longest run is tried first. *)
Lemma plus_from_greedy cls t rest k r :
  Forall (λ c, cls c = true) t → t ≠ [] →
  Re.plus_from cls rest k = None → k rest = Some r →
  Re.plus_from cls (t ++ rest) k = Some r.
Proof.
  intros Ht Hne Hstop Hk. induction Ht as [|c t Hc Ht IH]; [done|].
  simpl. rewrite Hc. destruct t as [|d t].
  - simpl. by rewrite Hstop.
  - by rewrite IH.
Qed.

Lemma plus_from_is_Some cls c s k :
  cls c = true → (∀ s', is_Some (k s')) →
  is_Some (Re.plus_from cls (c :: s) k).
Proof.
  intros Hc Hk. simpl. rewrite Hc.
  destruct (Re.plus_from cls s k); [eauto | apply Hk].
Qed.

Lemma plus_from_ext cls s k k' :
  (∀ s', k s' = k' s') → Re.plus_from cls s k = Re.plus_from cls s k'.
Proof.
  intros Hk. induction s as [|c s IH]; simpl; [done|].
  by rewrite IH, Hk.
Qed.

Lemma plus_from_stop cls s k :
  match s with [] => True | c :: _ => cls c = false end →
  Re.plus_from cls s k = None.
Proof. destruct s as [|c s]; simpl; [done|]. by intros ->. Qed.
End plus_from.

Lemma search_inv r s g :
  Re.search r s = Some g →
  ∃ a b, s = a ++ b ∧ Re.match_at r b None accept = Some g.
Proof.
  induction s as [|c s IH]; simpl; fold accept.
  - destruct (Re.match_at r [] None accept) eqn:E; [|done].
    intros [= ->]. by exists [], [].
  - destruct (Re.match_at r (c :: s) None accept) eqn:E.
    + intros [= ->]. by exists [], (c :: s).
    + intros H. destruct (IH H) as (a & b & -> & Hm). by exists (c :: a), b.
Qed.

Lemma search_is_Some r a b :
  is_Some (Re.match_at r b None accept) → is_Some (Re.search r (a ++ b)).
Proof.
  intros Hm. induction a as [|c a IH]; simpl; fold accept.
  - destruct b; simpl; fold accept; destruct Hm as [g ->]; eauto.
  - destruct (Re.match_at r (c :: a ++ b) None accept); eauto.
Qed.

(** The leftmost match wins. *)
Lemma search_leftmost r a b g :
  (∀ a1 a2, a = a1 ++ a2 → a2 ≠ [] →
            Re.match_at r (a2 ++ b) None accept = None) →
  Re.match_at r b None accept = Some g →
  Re.search r (a ++ b) = Some g.
Proof.
  intros Hno Hm. induction a as [|c a IH]; simpl; fold accept.
  - destruct b; simpl; fold accept; by rewrite Hm.
  - pose proof (Hno [] (c :: a) eq_refl ltac:(done)) as H0.
    change ((c :: a) ++ b) with (c :: a ++ b) in H0. rewrite H0. apply IH.
    intros a1 a2 -> Hne. by apply (Hno (c :: a1) a2).
Qed.

Lemma take_length_app_sub (t s' : str) :
  take (length (t ++ s') - length s') (t ++ s') = t.
Proof.
  rewrite length_app.
  replace (length t + length s' - length s')%nat with (length t) by lia.
  by rewrite take_app_length.
Qed.

Lemma opt_accept c s g : Re.match_at (Re.Opt c) s g accept = Some g.
Proof. simpl. destruct s as [|c' s]; [done|]. by destruct (c' =? c)%N. Qed.

Lemma token_after_inv s g :
  token_after s = Some g →
  ∃ t, g = Some t ∧ t ≠ [] ∧ Forall (λ c, not_quote_space c = true) t.
Proof.
  unfold token_after. intros H.
  apply plus_from_inv in H as (t & s' & -> & Hne & Ht & [= <-]).
  exists t. by rewrite take_length_app_sub.
Qed.

Lemma quoted_or_bare_at marker s :
  Re.match_at (quoted_or_bare marker) s None accept =
    if startswith marker s then
      let s1 := drop (length marker) s in
      match s1 with
      | c :: s2 =>
          if (c =? QUOTE)%N then
            match token_after s2 with
            | Some g => Some g
            | None => token_after s1
            end
          else token_after s1
      | [] => token_after s1
      end
    else None.
Proof.
  unfold quoted_or_bare. cbn [Re.match_at].
  destruct (startswith marker s); [|done].
  assert (Hk : ∀ s0, Re.plus_from not_quote_space s0
            (λ s', Re.match_at (Re.Opt QUOTE) s'
                     (Some (take (length s0 - length s') s0)) accept)
            = token_after s0).
  { intros s0. unfold token_after. apply plus_from_ext.
    intros s'. apply opt_accept. }
  cbn zeta. destruct (drop (length marker) s) as [|c s2]; [apply Hk|].
  destruct (c =? QUOTE)%N; rewrite !Hk; done.
Qed.

Lemma quoted_or_bare_inv marker s g :
  Re.match_at (quoted_or_bare marker) s None accept = Some g →
  startswith marker s = true
  ∧ ∃ t, g = Some t ∧ t ≠ [] ∧ Forall (λ c, not_quote_space c = true) t.
Proof.
  rewrite quoted_or_bare_at. destruct (startswith marker s); [|done].
  cbn zeta. intros H. split; [done|].
  destruct (drop (length marker) s) as [|c s2]; [by apply token_after_inv in H|].
  destruct (c =? QUOTE)%N; [|by apply token_after_inv in H].
  destruct (token_after s2) as [g'|] eqn:E.
  - injection H as ->. by apply token_after_inv in E.
  - by apply token_after_inv in H.
Qed.

(** A match of either wireless pattern captures a non-empty token free
    of quotes and white space. *)
Lemma search_quoted_or_bare_inv marker s g :
  Re.search (quoted_or_bare marker) s = Some g →
  ∃ t, g = Some t ∧ t ≠ [] ∧ Forall (λ c, not_quote_space c = true) t.
Proof.
  intros H. apply search_inv in H as (a & b & _ & H).
  by apply quoted_or_bare_inv in H as [_ H].
Qed.

Lemma token_after_is_Some c s :
  not_quote_space c = true → is_Some (token_after (c :: s)).
Proof. intros Hc. apply plus_from_is_Some; eauto. Qed.

(** A marker followed by a value, bare or after an opening quote, matches. *)
Lemma search_quoted_or_bare_found marker a q c b :
  q = [] ∨ q = [QUOTE] → not_quote_space c = true →
  is_Some (Re.search (quoted_or_bare marker) (a ++ marker ++ q ++ c :: b)).
Proof.
  intros Hq Hc. apply search_is_Some. rewrite quoted_or_bare_at.
  rewrite startswith_app, drop_app_length. cbn zeta.
  destruct Hq as [-> | ->]; simpl.
  - assert ((c =? QUOTE)%N = false) as ->.
    { unfold not_quote_space in Hc. apply negb_true_iff, orb_false_iff in Hc.
      by destruct Hc. }
    by apply token_after_is_Some.
  - destruct (token_after_is_Some c b Hc) as [g ->]. eauto.
Qed.

Lemma token_after_exact tok rest :
  tok ≠ [] → Forall (λ c, not_quote_space c = true) tok →
  match rest with [] => True | c :: _ => not_quote_space c = false end →
  token_after (tok ++ rest) = Some (Some tok).
Proof.
  intros Hne Htok Hrest. unfold token_after.
  apply plus_from_greedy; [done | done | by apply plus_from_stop |].
  by rewrite take_length_app_sub.
Qed.

(** The capture is the token that follows the first occurrence of the
    marker, bare or after an opening quote, up to the next quote or white
    space. *)
Lemma search_quoted_or_bare_token marker a q tok rest :
  (∀ a' b', a ++ marker ++ q ++ tok ++ rest = a' ++ marker ++ b' →
            length a ≤ length a') →
  q = [] ∨ q = [QUOTE] →
  tok ≠ [] → Forall (λ c, not_quote_space c = true) tok →
  match rest with [] => True | c :: _ => not_quote_space c = false end →
  Re.search (quoted_or_bare marker) (a ++ marker ++ q ++ tok ++ rest)
    = Some (Some tok).
Proof.
  intros Hfirst Hq Hne Htok Hrest. apply search_leftmost.
  - intros a1 a2 -> Ha2. rewrite quoted_or_bare_at.
    destruct (startswith marker _) eqn:Hs; [|done].
    apply startswith_spec in Hs as [b' Hb'].
    specialize (Hfirst a1 b'). rewrite <- app_assoc, Hb' in Hfirst.
    specialize (Hfirst eq_refl). rewrite length_app in Hfirst.
    destruct a2; [done|]. simpl in Hfirst. lia.
  - rewrite quoted_or_bare_at, startswith_app, drop_app_length. cbn zeta.
    pose proof (token_after_exact tok rest Hne Htok Hrest) as Htk.
    destruct Hq as [-> | ->]; cbn [app].
    + destruct tok as [|c tok]; [done|]. cbn [app] in *.
      apply Forall_cons in Htok as [Hc _].
      assert ((c =? QUOTE)%N = false) as ->; [|done].
      unfold not_quote_space in Hc. apply negb_true_iff, orb_false_iff in Hc.
      by destruct Hc.
    + by rewrite Htk.
Qed.

Lemma set_name_at s :
  Re.match_at RE_SET_NAME s None accept =
    if startswith (py "set") s then
      Re.plus_from space (drop 3 s) (λ s1,
        if startswith (py "name=") s1 then
          Re.plus_from not_space (drop 5 s1) (λ s',
            Some (Some (take (length (drop 5 s1) - length s') (drop 5 s1))))
        else None)
    else None.
Proof. reflexivity. Qed.

Lemma set_name_inv s g :
  Re.match_at RE_SET_NAME s None accept = Some g →
  contains (py "name=") s = true
  ∧ ∃ t, g = Some t ∧ t ≠ [] ∧ Forall (λ c, not_space c = true) t.
Proof.
  rewrite set_name_at. destruct (startswith (py "set") s) eqn:Hs; [|done].
  intros H. apply plus_from_inv in H as (ws & s1 & Hd & _ & _ & H).
  destruct (startswith (py "name=") s1) eqn:Hn; [|done].
  apply plus_from_inv in H as (t & s' & Ht & Hne & Hall & [= <-]). split.
  - apply startswith_spec in Hn as [b ->].
    apply contains_spec. exists (take 3 s ++ ws), b.
    rewrite <- (take_drop 3 s) at 1. rewrite Hd. by rewrite <- app_assoc.
  - exists t. rewrite Ht. by rewrite take_length_app_sub.
Qed.

Lemma search_set_name_inv s g :
  Re.search RE_SET_NAME s = Some g →
  contains (py "name=") s = true
  ∧ ∃ t, g = Some t ∧ t ≠ [] ∧ Forall (λ c, not_space c = true) t.
Proof.
  intros H. apply search_inv in H as (a & b & -> & H).
  apply set_name_inv in H as [Hc Ht]. split; [|done].
  apply contains_spec in Hc as (x & y & ->). apply contains_spec.
  exists (a ++ x), y. by rewrite <- app_assoc.
Qed.

(** [set], white space, [name=], then a token that ends at white space
    or at the end of the text: the token is the capture. *)
Lemma set_name_match ws tok rest :
  ws ≠ [] → Forall (λ c, space c = true) ws →
  tok ≠ [] → Forall (λ c, not_space c = true) tok →
  match rest with [] => True | c :: _ => space c = true end →
  Re.match_at RE_SET_NAME (py "set" ++ ws ++ py "name=" ++ tok ++ rest)
    None accept = Some (Some tok).
Proof.
  intros Hws Hsp Htok Hns Hrest. rewrite set_name_at.
  rewrite startswith_app.
  rewrite (drop_app_length' (py "set")) by done.
  apply plus_from_greedy; [done..|reflexivity|].
  rewrite startswith_app.
  rewrite (drop_app_length' (py "name=")) by done.
  apply plus_from_greedy; [done..| |].
  - apply plus_from_stop. destruct rest as [|c rest]; [done|].
    unfold not_space. unfold space in Hrest. by rewrite Hrest.
  - by rewrite take_length_app_sub.
Qed.

(** ** Output parser: no exception, and the empty result *)

Lemma parse_identity_loop_ok lines :
  parse_identity_loop lines = None
  ∨ ∃ v, parse_identity_loop lines = Some (Ok v).
Proof.
  induction lines as [|line rest IH]; simpl; [by left|].
  destruct (contains (py "name:") line) eqn:Hc; [|done].
  right. unfold split1.
  destruct (partition_contains _ _ Hc) as [[a b] ->]. simpl. eauto.
Qed.

Lemma parse_identity_loop_absent lines :
  Forall (λ l, contains (py "name:") l = false) lines →
  parse_identity_loop lines = None.
Proof. induction 1 as [|l ls Hl _ IH]; simpl; [done|]. by rewrite Hl. Qed.

Lemma parse_identity_total raw : ∃ v, parse_identity raw = Ok v.
Proof.
  unfold parse_identity.
  destruct (parse_identity_loop_ok (splitlines raw)) as [-> | [v ->]]; [|eauto].
  destruct (Re.search RE_SET_NAME raw) as [g|] eqn:E; [|eauto].
  apply search_set_name_inv in E as (_ & t & -> & _). simpl. eauto.
Qed.

Lemma lines_absent sub raw :
  contains sub raw = false →
  Forall (λ l, contains sub l = false) (splitlines raw).
Proof.
  intros H. apply Forall_forall. intros l Hl. by apply (contains_line _ _ raw).
Qed.

Lemma parse_identity_absent raw :
  contains (py "name:") raw = false → contains (py "name=") raw = false →
  parse_identity raw = Ok [].
Proof.
  intros H1 H2. unfold parse_identity.
  rewrite parse_identity_loop_absent by by apply lines_absent.
  destruct (Re.search RE_SET_NAME raw) as [g|] eqn:E; [|done].
  apply search_set_name_inv in E as [E _]. congruence.
Qed.

(** ** The order on [str] and [sorted] *)

Lemma str_ltb_irrefl a : str_ltb a a = false.
Proof.
  induction a as [|x a IH]; simpl; [done|].
  by rewrite N.ltb_irrefl, N.eqb_refl, IH.
Qed.

Lemma str_ltb_asym a b : str_ltb a b = true → str_ltb b a = false.
Proof.
  revert b. induction a as [|x a IH]; intros [|y b]; simpl; try done.
  destruct (N.ltb_spec x y), (N.eqb_spec x y), (N.ltb_spec y x),
    (N.eqb_spec y x); simpl; try lia; auto.
Qed.

Lemma str_ltb_trans a b c :
  str_ltb a b = true → str_ltb b c = true → str_ltb a c = true.
Proof.
  revert b c. induction a as [|x a IH]; intros [|y b] [|z c]; simpl; try done.
  destruct (N.ltb_spec x y), (N.eqb_spec x y), (N.ltb_spec y z),
    (N.eqb_spec y z), (N.ltb_spec x z), (N.eqb_spec x z);
    simpl; try lia; try done; eauto.
Qed.

Lemma str_ltb_total a b :
  str_ltb a b = false → str_ltb b a = false → a = b.
Proof.
  revert b. induction a as [|x a IH]; intros [|y b]; simpl; try done.
  destruct (N.ltb_spec x y), (N.eqb_spec x y), (N.ltb_spec y x),
    (N.eqb_spec y x); simpl; try lia; try done.
  intros. subst. f_equal. auto.
Qed.

#[local] Instance str_le_total : Total str_le.
Proof.
  intros a b. unfold str_le. destruct (str_ltb b a) eqn:E; [|by left].
  right. by apply str_ltb_asym.
Qed.

#[local] Instance str_le_trans : Transitive str_le.
Proof.
  intros a b c. unfold str_le. intros Hab Hbc.
  destruct (str_ltb c a) eqn:Hca; [|done]. exfalso.
  destruct (str_ltb a b) eqn:E.
  - rewrite (str_ltb_trans c a b) in Hbc; done.
  - rewrite (str_ltb_total a b E Hab) in Hca. congruence.
Qed.

Lemma sorted_elem_of (s : gset str) t : t ∈ sorted s ↔ t ∈ s.
Proof. unfold sorted. by rewrite merge_sort_Permutation, elem_of_elements. Qed.

(** [sorted] yields strictly ascending text: in order, nothing twice. *)
Lemma sorted_strict (s : gset str) : StronglySorted str_lt (sorted s).
Proof.
  assert (Hs : StronglySorted str_le (sorted s)).
  { apply Sorted_StronglySorted; [apply _|]. apply Sorted_merge_sort, _. }
  assert (Hn : NoDup (sorted s)).
  { unfold sorted. rewrite merge_sort_Permutation. apply NoDup_elements. }
  induction Hs as [|x l Hl IH Hx]; [constructor|].
  apply NoDup_cons in Hn as [Hx' Hn]. constructor; [auto|].
  apply Forall_forall. intros y Hy. rewrite Forall_forall in Hx.
  specialize (Hx y Hy). unfold str_le in Hx. unfold str_lt.
  destruct (str_ltb x y) eqn:E; [done|].
  rewrite (str_ltb_total x y E Hx) in Hx'. done.
Qed.

Lemma sorted_empty : sorted ∅ = [].
Proof. unfold sorted. by rewrite elements_empty. Qed.

(** ** [parse_wireless] *)

Lemma collect_spec (marker line : str) (s : gset str) :
  ∃ s', collect marker (quoted_or_bare marker) line s = Ok s'
        ∧ ∀ t, t ∈ s' ↔ t ∈ s ∨ tokens_of marker (quoted_or_bare marker) [line] t.
Proof.
  unfold collect, tokens_of.
  destruct (contains marker line) eqn:Hc.
  - destruct (Re.search (quoted_or_bare marker) line) as [g|] eqn:Hs.
    + destruct (search_quoted_or_bare_inv _ _ _ Hs) as (t0 & -> & _).
      simpl. eexists; split; [done|]. intros t.
      rewrite elem_of_union, elem_of_singleton. split.
      * intros [-> | ?]; [right | by left].
        exists line. by rewrite list_elem_of_singleton.
      * intros [? | (l & Hl & _ & Hl')]; [by right|]. left.
        apply list_elem_of_singleton in Hl as ->. congruence.
    + exists s. split; [done|]. intros t. split; [by left|].
      intros [? | (l & Hl & _ & Hl')]; [done|].
      apply list_elem_of_singleton in Hl as ->. congruence.
  - exists s. split; [done|]. intros t. split; [by left|].
    intros [? | (l & Hl & Hl' & _)]; [done|].
    apply list_elem_of_singleton in Hl as ->. congruence.
Qed.

Lemma tokens_of_cons (marker : str) pat (line : str) lines t :
  tokens_of marker pat (line :: lines) t ↔
  tokens_of marker pat [line] t ∨ tokens_of marker pat lines t.
Proof.
  unfold tokens_of. split.
  - intros (l & Hl & H). apply elem_of_cons in Hl as [-> | Hl].
    + left. exists line. by rewrite list_elem_of_singleton.
    + right. by exists l.
  - intros [(l & Hl & H) | (l & Hl & H)]; exists l; split; try done.
    + apply list_elem_of_singleton in Hl as ->. by left.
    + by right.
Qed.

Lemma parse_wireless_loop_spec (lines : list str) (ssids radios : gset str) :
  ∃ ssids' radios',
    parse_wireless_loop lines ssids radios = Ok (ssids', radios')
    ∧ (∀ t, t ∈ ssids' ↔ t ∈ ssids ∨ tokens_of (py "ssid=") RE_SSID lines t)
    ∧ (∀ t, t ∈ radios' ↔
             t ∈ radios ∨ tokens_of (py "radio-name=") RE_RADIO_NAME lines t).
Proof.
  change RE_SSID with (quoted_or_bare (py "ssid=")).
  change RE_RADIO_NAME with (quoted_or_bare (py "radio-name=")).
  revert ssids radios. induction lines as [|line rest IH]; intros ssids radios.
  - exists ssids, radios. split; [done|].
    split; intros t; (split; [by left|]);
      intros [? | (l & Hl & _)]; try done; by apply elem_of_nil in Hl.
  - cbn [parse_wireless_loop].
    change RE_SSID with (quoted_or_bare (py "ssid=")).
    change RE_RADIO_NAME with (quoted_or_bare (py "radio-name=")).
    destruct (collect_spec (py "ssid=") line ssids) as (s1 & -> & H1).
    destruct (collect_spec (py "radio-name=") line radios) as (r1 & -> & H2).
    cbn [result_bind].
    destruct (IH s1 r1) as (s2 & r2 & -> & H3 & H4).
    exists s2, r2. split; [done|].
    split; intros t; rewrite tokens_of_cons; [rewrite H3, H1 | rewrite H4, H2];
      tauto.
Qed.

(** The two sets [parse_wireless] serialises. *)
Lemma parse_wireless_sets raw :
  ∃ ssids radios : gset str,
    parse_wireless raw
      = Ok (join (py ";") (sorted ssids), join (py ";") (sorted radios))
    ∧ (∀ t, t ∈ ssids ↔ tokens_of (py "ssid=") RE_SSID (splitlines raw) t)
    ∧ (∀ t, t ∈ radios ↔
             tokens_of (py "radio-name=") RE_RADIO_NAME (splitlines raw) t).
Proof.
  unfold parse_wireless.
  destruct (parse_wireless_loop_spec (splitlines raw) ∅ ∅)
    as (s & r & -> & Hs & Hr).
  exists s, r. split; [done|].
  split; intros t; [rewrite Hs | rewrite Hr]; rewrite elem_of_empty; tauto.
Qed.

Lemma parse_wireless_total raw : ∃ v, parse_wireless raw = Ok v.
Proof. destruct (parse_wireless_sets raw) as (s & r & -> & _). eauto. Qed.

Lemma tokens_of_absent (marker : str) pat (lines : list str) t :
  Forall (λ l, contains marker l = false) lines →
  ¬ tokens_of marker pat lines t.
Proof.
  rewrite Forall_forall. intros H (l & Hl & Hc & _).
  specialize (H l Hl). congruence.
Qed.

Lemma parse_wireless_absent raw :
  contains (py "ssid=") raw = false →
  contains (py "radio-name=") raw = false →
  parse_wireless raw = Ok ([], []).
Proof.
  intros H1 H2. destruct (parse_wireless_sets raw) as (s & r & -> & Hs & Hr).
  assert (s = ∅) as ->.
  { apply set_eq. intros t. rewrite Hs, elem_of_empty. split; [|done].
    intros Ht. by apply tokens_of_absent in Ht; [|apply lines_absent]. }
  assert (r = ∅) as ->.
  { apply set_eq. intros t. rewrite Hr, elem_of_empty. split; [|done].
    intros Ht. by apply tokens_of_absent in Ht; [|apply lines_absent]. }
  by rewrite sorted_empty.
Qed.

(** Only which lines occur matters, not where or how often. *)
Lemma parse_wireless_lines raw1 raw2 :
  (∀ l, l ∈ splitlines raw1 ↔ l ∈ splitlines raw2) →
  parse_wireless raw1 = parse_wireless raw2.
Proof.
  intros Hl.
  destruct (parse_wireless_sets raw1) as (s1 & r1 & -> & Hs1 & Hr1).
  destruct (parse_wireless_sets raw2) as (s2 & r2 & -> & Hs2 & Hr2).
  assert (Ht : ∀ m p t, tokens_of m p (splitlines raw1) t
                        ↔ tokens_of m p (splitlines raw2) t).
  { intros m p t. unfold tokens_of. split; intros (l & Hin & H);
      exists l; (split; [by apply Hl | done]). }
  assert (s1 = s2) as ->.
  { apply set_eq. intros t. by rewrite Hs1, Hs2, Ht. }
  assert (r1 = r2) as ->.
  { apply set_eq. intros t. by rewrite Hr1, Hr2, Ht. }
  done.
Qed.

(** ** Session client and credential prober *)

Section Prober.
Context {World : Type}.
Variable remote : World → call → result (str * str) * World.

Implicit Types (st : state World) (ip user pwd cmd : str).
Implicit Types (creds : list credential).

Lemma ssh_run_calls ip user pwd cmd st :
  calls (ssh_run remote ip user pwd cmd st).2 = calls st ++ [Call ip user pwd cmd].
Proof.
  unfold ssh_run. by destruct (remote (world st) _).
Qed.

(** What [ssh_run] returns from the two streams. *)
Lemma ssh_run_streams ip user pwd cmd st out err w' :
  remote (world st) (Call ip user pwd cmd) = (Ok (out, err), w') →
  ssh_run remote ip user pwd cmd st
    = (Ok (if truthy (strip out) then out else err),
       State w' (calls st ++ [Call ip user pwd cmd])).
Proof. unfold ssh_run. by intros ->. Qed.

Lemma attempt_raised ip user pwd st e st1 :
  ssh_run remote ip user pwd COMMAND_IDENTITY st = (Raised e, st1) →
  attempt remote ip user pwd st = (Raised e, st1).
Proof. intros H. unfold attempt, bind. by rewrite H. Qed.

Lemma attempt_empty ip user pwd st st1 :
  ssh_run remote ip user pwd COMMAND_IDENTITY st = (Ok [], st1) →
  attempt remote ip user pwd st
    = (Raised (Exn RuntimeError (py "Empty response")), st1).
Proof. intros H. unfold attempt, bind. by rewrite H. Qed.

Lemma attempt_success ip user pwd st x st1 :
  ssh_run remote ip user pwd COMMAND_IDENTITY st = (Ok x, st1) → x ≠ [] →
  attempt remote ip user pwd st
    = (Ok (Some (user, pwd),
           probe_outputs x (wireless_phase remote ip user pwd st1).1, []),
       (wireless_phase remote ip user pwd st1).2).
Proof.
  intros H Hx. unfold attempt, bind, try_except, ret, wireless_phase.
  rewrite H. apply truthy_true in Hx. rewrite Hx.
  destruct (ssh_run remote ip user pwd COMMAND_WIRELESS st1) as [[w1|e1] st2]; simpl.
  - destruct (truthy w1) eqn:Hw; [done|].
    by destruct (ssh_run remote ip user pwd COMMAND_WIRELESS_ALT st2) as [[w2|e2] st3].
  - by destruct (ssh_run remote ip user pwd COMMAND_WIRELESS_ALT st2) as [[w2|e2] st3].
Qed.

(** Every call of the wireless phase is made with the same credential. *)
Lemma wireless_phase_calls ip user pwd st :
  ∃ tail,
    calls (wireless_phase remote ip user pwd st).2 = calls st ++ tail
    ∧ Forall (λ k, call_ip k = ip ∧ call_credential k = (user, pwd)
                   ∧ call_command k ≠ COMMAND_EXPORT) tail.
Proof.
  unfold wireless_phase.
  pose proof (ssh_run_calls ip user pwd COMMAND_WIRELESS st) as H1.
  destruct (ssh_run remote ip user pwd COMMAND_WIRELESS st) as [r1 st1].
  simpl in H1.
  destruct (truthy _).
  - eexists. split; [exact H1|]. by repeat constructor.
  - pose proof (ssh_run_calls ip user pwd COMMAND_WIRELESS_ALT st1) as H2.
    destruct (ssh_run remote ip user pwd COMMAND_WIRELESS_ALT st1) as [r2 st2].
    simpl in *. rewrite H2, H1, <- app_assoc.
    eexists. split; [done|]. by repeat constructor.
Qed.

(** *** The loop over the credentials *)

Lemma try_credentials_step_rejected user pwd rest ip last_error st r st1 :
  ssh_run remote ip user pwd COMMAND_IDENTITY st = (r, st1) → rejected r →
  try_credentials_from remote ((user, pwd) :: rest) ip last_error st
    = try_credentials_from remote rest ip (record_error last_error r) st1.
Proof.
  intros H Hr. cbn [try_credentials_from]. unfold try_except.
  destruct r as [x|e]; simpl in Hr.
  - subst x. rewrite (attempt_empty _ _ _ _ _ H). done.
  - rewrite (attempt_raised _ _ _ _ _ _ H). simpl. by destruct (exn_cls e).
Qed.

Lemma try_credentials_step_success user pwd rest ip last_error st x st1 :
  ssh_run remote ip user pwd COMMAND_IDENTITY st = (Ok x, st1) → x ≠ [] →
  try_credentials_from remote ((user, pwd) :: rest) ip last_error st
    = (Ok (Some (user, pwd),
           probe_outputs x (wireless_phase remote ip user pwd st1).1, []),
       (wireless_phase remote ip user pwd st1).2).
Proof.
  intros H Hx. cbn [try_credentials_from]. unfold try_except.
  by rewrite (attempt_success _ _ _ _ _ _ H Hx).
Qed.

Lemma after_identities_calls creds ip st :
  calls (after_identities remote creds ip st)
    = calls st ++ (identity_call ip <$> creds).
Proof.
  revert st. induction creds as [|[user pwd] rest IH]; intros st; simpl.
  - by rewrite app_nil_r.
  - rewrite IH, ssh_run_calls, <- app_assoc. done.
Qed.

(** Exhaustion: every reply rejected. *)
Lemma try_credentials_exhausted creds ip last_error st :
  Forall rejected (identity_replies remote creds ip st) →
  try_credentials_from remote creds ip last_error st
    = (Ok (None, ∅,
           default (py "Auth/connection failed")
             (foldl record_error last_error (identity_replies remote creds ip st))),
       after_identities remote creds ip st).
Proof.
  revert last_error st.
  induction creds as [|[user pwd] rest IH]; intros last_error st H; [done|].
  cbn [identity_replies after_identities] in *.
  destruct (ssh_run remote ip user pwd COMMAND_IDENTITY st) as [r st1] eqn:E.
  apply Forall_cons in H as [Hr H].
  rewrite (try_credentials_step_rejected user pwd rest ip last_error
             st r st1 E Hr).
  by rewrite (IH _ _ H).
Qed.

(** First success: the replies before it rejected, its own not empty. *)
Lemma try_credentials_first_success pre user pwd post ip last_error st x :
  Forall rejected (identity_replies remote pre ip st) →
  (ssh_run remote ip user pwd COMMAND_IDENTITY (after_identities remote pre ip st)).1 = Ok x →
  x ≠ [] →
  let st1 := (ssh_run remote ip user pwd COMMAND_IDENTITY
                (after_identities remote pre ip st)).2 in
  try_credentials_from remote (pre ++ (user, pwd) :: post) ip last_error st
    = (Ok (Some (user, pwd),
           probe_outputs x (wireless_phase remote ip user pwd st1).1, []),
       (wireless_phase remote ip user pwd st1).2).
Proof.
  revert last_error st.
  induction pre as [|[u p] pre IH]; intros last_error st Hrej Hx Hne; simpl.
  - simpl in Hx.
    destruct (ssh_run remote ip user pwd COMMAND_IDENTITY st) as [r st1] eqn:E.
    simpl in Hx. subst r.
    by apply (try_credentials_step_success user pwd post ip last_error st).
  - simpl in Hrej, Hx.
    destruct (ssh_run remote ip u p COMMAND_IDENTITY st) as [r st1] eqn:E.
    apply Forall_cons in Hrej as [Hr Hrej].
    pose proof (try_credentials_step_rejected u p (pre ++ (user, pwd) :: post)
                  ip last_error st r st1 E Hr) as Hstep.
    simpl in Hstep. rewrite Hstep. simpl. by apply IH.
Qed.

(** One of the two always applies. *)
Lemma identity_replies_cases creds ip st :
  Forall rejected (identity_replies remote creds ip st)
  ∨ ∃ pre user pwd post x,
      creds = pre ++ (user, pwd) :: post
      ∧ Forall rejected (identity_replies remote pre ip st)
      ∧ (ssh_run remote ip user pwd COMMAND_IDENTITY
           (after_identities remote pre ip st)).1 = Ok x
      ∧ x ≠ [].
Proof.
  revert st. induction creds as [|[u p] rest IH]; intros st; [by left|].
  simpl. destruct (ssh_run remote ip u p COMMAND_IDENTITY st) as [r st1] eqn:E.
  assert (Hdec : rejected r ∨ ∃ x, r = Ok x ∧ x ≠ []).
  { destruct r as [[|c x]|e]; simpl; eauto. }
  destruct Hdec as [Hr | (x & -> & Hx)].
  - destruct (IH st1) as [H | (pre & user & pwd & post & x & -> & H & Hx & Hne)].
    + left. by constructor.
    + right. exists ((u, p) :: pre), user, pwd, post, x. simpl.
      rewrite E. simpl. repeat split; try done. by constructor.
  - right. exists [], u, p, rest, x. simpl. rewrite E. by repeat split.
Qed.
End Prober.

(** ** Per-device orchestrator *)

Section Orchestrator.
Context {World : Type}.
Variable remote : World → call → result (str * str) * World.
Context {Seconds : Type}.
Variable time_time : World → Seconds.
Variable round_diff : Seconds → Seconds → Seconds.

Implicit Types (st : state World) (ip user pwd cmd : str).
Implicit Types (creds : list credential) (outputs : gmap str str).

Lemma append_marked_concat acc lines :
  append_marked acc lines
    = acc ++ concat ((λ l, LF :: l) <$> filter (λ l, marked l = true) lines).
Proof.
  revert acc. induction lines as [|l ls IH]; intros acc; simpl.
  - by rewrite app_nil_r.
  - rewrite IH. unfold filter; simpl.
    destruct (decide (marked l = true)) as [-> | Hn]; simpl.
    + by rewrite <- app_assoc.
    + apply not_true_is_false in Hn. by rewrite Hn.
Qed.

Lemma process_ip_unauthenticated ip st outputs e st1 :
  try_credentials remote ip st = (Ok (None, outputs, e), st1) →
  process_ip remote time_time round_diff ip st
    = (Ok (Record_ ip (py "FAIL") [] [] [] [] [] e (elapsed time_time round_diff st st1)), st1).
Proof. intros H. unfold process_ip, bind. by rewrite H. Qed.

Lemma process_ip_authenticated ip st user pwd outputs e st1 w :
  try_credentials remote ip st = (Ok (Some (user, pwd), outputs, e), st1) →
  default [] (outputs !! py "wireless") = w →
  ∃ identity ssids radios,
    parse_identity (default [] (outputs !! py "identity")) = Ok identity
    ∧ parse_wireless (if truthy w then w else fallback_text remote ip user pwd st1)
        = Ok (ssids, radios)
    ∧ process_ip remote time_time round_diff ip st
        = (Ok (Record_ ip (py "OK") user pwd identity ssids radios []
                 (elapsed time_time round_diff st st1)),
           if truthy w then st1
           else (ssh_run remote ip user pwd COMMAND_EXPORT st1).2).
Proof.
  intros H Hw.
  destruct (parse_identity_total (default [] (outputs !! py "identity")))
    as [identity Hid].
  destruct (parse_wireless_total
              (if truthy w then w else fallback_text remote ip user pwd st1))
    as [[ssids radios] Hpw].
  exists identity, ssids, radios. split; [done|]. split; [done|].
  unfold process_ip, bind. rewrite H. cbn beta iota zeta. rewrite Hw.
  destruct (truthy w) eqn:Ht.
  - unfold ret, lift. rewrite Hid, Hpw. done.
  - unfold try_except, ret, lift. apply truthy_false in Ht.
    rewrite Ht in *. clear Hw Ht.
    unfold fallback_text, export_text in Hpw. cbn [fst snd].
    destruct (ssh_run remote ip user pwd COMMAND_EXPORT st1)
      as [[t|e'] st2]; cbn [fst snd] in *.
    + rewrite Hid. rewrite append_marked_concat. simpl app.
      destruct (truthy t) eqn:Htt.
      * rewrite Hpw. done.
      * apply truthy_false in Htt. subst t.
        assert (Hpw' : parse_wireless [] = Ok (ssids, radios)) by exact Hpw.
        by rewrite Hpw'.
    + rewrite Hid.
      assert (Hpw' : parse_wireless [] = Ok (ssids, radios)) by exact Hpw.
      cbn [truthy]. by rewrite Hpw'.
Qed.
End Orchestrator.

(** * The specification's claims: output parser *)

Lemma splitlines_join (lines : list str) :
  Forall nobreak lines → Forall (λ l, l ≠ []) lines →
  splitlines (join [LF] lines) = lines.
Proof.
  induction 1 as [|l ls Hl Hls IH]; [done|]. intros Hne.
  apply Forall_cons in Hne as [Hl' Hne]. destruct ls as [|l2 ls].
  - by apply splitlines_single.
  - change (join [LF] (l :: l2 :: ls)) with (l ++ LF :: join [LF] (l2 :: ls)).
    rewrite splitlines_line_LF by done. by rewrite IH.
Qed.

Lemma parse_identity_fallback raw :
  Forall (λ l, contains (py "name:") l = false) (splitlines raw) →
  parse_identity raw =
    match Re.search RE_SET_NAME raw with
    | Some (Some g) => Ok (strip_quotes g)
    | _ => Ok []
    end.
Proof.
  intros H. unfold parse_identity. rewrite parse_identity_loop_absent by done.
  destruct (Re.search RE_SET_NAME raw) as [g|] eqn:E; [|done].
  apply search_set_name_inv in E as (_ & t & -> & _ & Ht). simpl.
  unfold strip. rewrite strip_by_id; [done|].
  eapply Forall_impl; [exact Ht|]. intros c Hc. unfold not_space in Hc.
  by apply negb_true_iff in Hc.
Qed.

(** C5. [parse_wireless] serialises two sets of tokens, the ones after
    [ssid=] and the ones after [radio-name=]: each is written in strictly
    ascending order (so sorted, and nothing twice) joined with [;]. The
    result depends only on which lines occur in the text, not on their
    order or multiplicity; in particular any text whose lines are the
    quoted forms of [ssid=Net-A] and [ssid=Net-B], in any order and any
    number of times, yields the SSID field [Net-A;Net-B]. The token a line
    contributes is the text after the first occurrence of the marker, bare
    or after an opening quote, up to the next quote or white space. *)
Theorem parse_wireless_sorted_dedup :
  (∀ raw, ∃ ss rs,
      parse_wireless raw = Ok (join (py ";") ss, join (py ";") rs)
      ∧ StronglySorted str_lt ss
      ∧ (∀ t, t ∈ ss ↔ tokens_of (py "ssid=") RE_SSID (splitlines raw) t)
      ∧ StronglySorted str_lt rs
      ∧ (∀ t, t ∈ rs ↔
               tokens_of (py "radio-name=") RE_RADIO_NAME (splitlines raw) t))
  ∧ (∀ raw1 raw2,
      (∀ l, l ∈ splitlines raw1 ↔ l ∈ splitlines raw2) →
      parse_wireless raw1 = parse_wireless raw2)
  ∧ (∀ lines : list str,
      let net_a := py "ssid=" ++ [QUOTE] ++ py "Net-A" ++ [QUOTE] in
      let net_b := py "ssid=" ++ [QUOTE] ++ py "Net-B" ++ [QUOTE] in
      (∀ l, l ∈ lines → l = net_a ∨ l = net_b) →
      net_a ∈ lines → net_b ∈ lines →
      parse_wireless (join [LF] lines) = Ok (py "Net-A;Net-B", []))
  ∧ (∀ marker pat a q tok rest,
      (marker, pat) = (py "ssid=", RE_SSID)
      ∨ (marker, pat) = (py "radio-name=", RE_RADIO_NAME) →
      (∀ a' b', a ++ marker ++ q ++ tok ++ rest = a' ++ marker ++ b' →
                length a ≤ length a') →
      q = [] ∨ q = [QUOTE] →
      tok ≠ [] → Forall (λ c, c ≠ QUOTE ∧ isspace c = false) tok →
      match rest with
      | [] => True
      | c :: _ => c = QUOTE ∨ isspace c = true
      end →
      Re.search pat (a ++ marker ++ q ++ tok ++ rest) = Some (Some tok)).
Proof.
  split; [|split; [|split]]; cycle 3.
  { intros marker pat a q tok rest Hpat Hfirst Hq Hne Htok Hrest.
    assert (pat = quoted_or_bare marker) as ->.
    { by destruct Hpat as [[= -> ->] | [= -> ->]]. }
    apply search_quoted_or_bare_token; try done.
    - eapply Forall_impl; [exact Htok|]. intros c [Hc1 Hc2].
      unfold not_quote_space. rewrite Hc2.
      by apply N.eqb_neq in Hc1 as ->.
    - destruct rest as [|c rest]; [done|]. unfold not_quote_space.
      destruct Hrest as [-> | ->]; [done|]. by rewrite orb_true_r. }
  - intros raw. destruct (parse_wireless_sets raw) as (s & r & -> & Hs & Hr).
    exists (sorted s), (sorted r). split; [done|].
    split; [apply sorted_strict|]. split.
    { intros t. by rewrite sorted_elem_of. }
    split; [apply sorted_strict|]. intros t. by rewrite sorted_elem_of.
  - apply parse_wireless_lines.
  - intros lines net_a net_b Hall Ha Hb.
    rewrite (parse_wireless_lines _ (net_a ++ LF :: net_b)); [by vm_compute|].
    rewrite splitlines_join.
    + intros l. change (splitlines (net_a ++ LF :: net_b)) with [net_a; net_b].
      rewrite elem_of_cons, list_elem_of_singleton. split; [apply Hall|].
      by intros [-> | ->].
    + apply Forall_forall. intros l Hl.
      destruct (Hall l Hl) as [-> | ->]; by vm_compute; repeat constructor.
    + apply Forall_forall. intros l Hl. by destruct (Hall l Hl) as [-> | ->].
Qed.

Lemma parse_wireless_sorted_dedup_witness :
  parse_wireless (py "ssid=b" ++ [LF] ++ py "ssid=a" ++ [LF] ++ py "ssid=b")
  = parse_wireless (py "ssid=a" ++ [LF] ++ py "ssid=b").
Proof.
  apply (proj1 (proj2 parse_wireless_sorted_dedup)).
  intros l. vm_compute splitlines.
  rewrite !elem_of_cons, !elem_of_nil. tauto.
Defined.

(** C6. [parse_identity] takes the first line that contains [name:] and
    returns the text after the first [name:] of that line, stripped. If no
    line contains [name:] it falls back to the assignment pattern ([set],
    white space, [name=] and a run of non-blank characters) and returns
    the run without its surrounding double quotes. Text with neither
    [name:] nor [name=] gives the empty string. The three sample inputs
    give [Router7], [Gateway-1] and the empty string. *)
Theorem parse_identity_spec :
  (∀ raw pre line post a b,
      splitlines raw = pre ++ line :: post →
      Forall (λ l, contains (py "name:") l = false) pre →
      line = a ++ py "name:" ++ b →
      (∀ a' b', line = a' ++ py "name:" ++ b' → length a ≤ length a') →
      parse_identity raw = Ok (strip b))
  ∧ (∀ raw,
      Forall (λ l, contains (py "name:") l = false) (splitlines raw) →
      parse_identity raw =
        match Re.search RE_SET_NAME raw with
        | Some (Some g) => Ok (strip_quotes g)
        | _ => Ok []
        end)
  ∧ (∀ raw a ws tok rest,
      Forall (λ l, contains (py "name:") l = false) (splitlines raw) →
      raw = a ++ py "set" ++ ws ++ py "name=" ++ tok ++ rest →
      (∀ a' b', raw = a' ++ py "set" ++ b' → length a ≤ length a') →
      ws ≠ [] → Forall (λ c, isspace c = true) ws →
      tok ≠ [] → Forall (λ c, isspace c = false) tok →
      match rest with [] => True | c :: _ => isspace c = true end →
      parse_identity raw = Ok (strip_quotes tok))
  ∧ (∀ raw,
      contains (py "name:") raw = false → contains (py "name=") raw = false →
      parse_identity raw = Ok [])
  ∧ parse_identity (py "name: Router7" ++ [LF]) = Ok (py "Router7")
  ∧ parse_identity (py "set name=" ++ [QUOTE] ++ py "Gateway-1" ++ [QUOTE])
    = Ok (py "Gateway-1")
  ∧ parse_identity [] = Ok [].
Proof.
  split; [|split; [|split; [|split; [|by vm_compute]]]].
  - intros raw pre line post a b Hraw Hpre -> Hfirst.
    unfold parse_identity. rewrite Hraw. clear Hraw.
    induction Hpre as [|l ls Hl _ IH]; cbn [app parse_identity_loop].
    + rewrite (proj2 (contains_spec _ _)) by eauto.
      unfold split1. by rewrite partition_first.
    + by rewrite Hl.
  - apply parse_identity_fallback.
  - intros raw a ws tok rest Hlines -> Hfirst Hws Hsp Htok Hns Hrest.
    rewrite parse_identity_fallback by done.
    rewrite (search_leftmost _ _ _ (Some tok)); [done| |].
    + intros a1 a2 -> Hne. rewrite set_name_at.
      destruct (startswith (py "set") _) eqn:Hs; [|done].
      apply startswith_spec in Hs as [b' Hb'].
      specialize (Hfirst a1 b'). rewrite <- app_assoc, Hb' in Hfirst.
      specialize (Hfirst eq_refl). rewrite length_app in Hfirst.
      destruct a2; [done|]. simpl in Hfirst. lia.
    + apply set_name_match; try done.
      eapply Forall_impl; [exact Hns|]. intros c Hc. unfold not_space.
      by rewrite Hc.
  - apply parse_identity_absent.
Qed.

Lemma parse_identity_spec_witness :
  parse_identity (py "flags: X" ++ [LF] ++ py "  name: Core Router  ")
  = Ok (py "Core Router").
Proof.
  apply (proj1 parse_identity_spec
           _ [py "flags: X"] (py "  name: Core Router  ") [] (py "  ")
           (py " Core Router  ")).
  - reflexivity.
  - by repeat constructor.
  - reflexivity.
  - intros a' b' H. destruct a' as [|x [|y a']]; [by vm_compute in H..|].
    simpl. lia.
Defined.

(** C9. Neither parser raises, whatever the text: [parse_identity]
    returns a string and [parse_wireless] a pair of strings. Without
    [name:] and [name=] in the text [parse_identity] returns the empty
    string; without [ssid=] and [radio-name=] [parse_wireless] returns two
    empty strings. *)
Theorem parsers_never_raise :
  (∀ raw, ∃ v, parse_identity raw = Ok v)
  ∧ (∀ raw, ∃ v, parse_wireless raw = Ok v)
  ∧ (∀ raw,
      contains (py "name:") raw = false → contains (py "name=") raw = false →
      parse_identity raw = Ok [])
  ∧ (∀ raw,
      contains (py "ssid=") raw = false →
      contains (py "radio-name=") raw = false →
      parse_wireless raw = Ok ([], [])).
Proof.
  split; [apply parse_identity_total|].
  split; [apply parse_wireless_total|].
  split; [apply parse_identity_absent | apply parse_wireless_absent].
Qed.

Lemma parsers_never_raise_witness :
  parse_identity (py "uptime: 3d" ++ [LF] ++ py "bad command") = Ok []
  ∧ parse_wireless (py "uptime: 3d" ++ [LF] ++ py "bad command") = Ok ([], []).
Proof.
  destruct parsers_never_raise as (_ & _ & Hid & Hw).
  split; [apply Hid | apply Hw]; reflexivity.
Defined.

(** ** Outcomes of the prober and of the orchestrator *)

Section Outcomes.
Context {World : Type}.
Variable remote : World → call → result (str * str) * World.
Context {Seconds : Type}.
Variable time_time : World → Seconds.
Variable round_diff : Seconds → Seconds → Seconds.

Implicit Types (st : state World) (ip user pwd cmd : str).
Implicit Types (creds : list credential) (outputs : gmap str str).

Lemma auth_error_rejected r : auth_error r → rejected r.
Proof. by destruct r. Qed.

Lemma record_error_auth last_error rs :
  Forall auth_error rs → foldl record_error last_error rs = last_error.
Proof.
  induction 1 as [|r rs Hr _ IH]; simpl; [done|]. rewrite <- IH at 2.
  f_equal. destruct r as [x|e]; simpl in *; [done|]. by rewrite Hr.
Qed.

Lemma record_error_last last_error rs r rs' :
  ¬ auth_error r → Forall auth_error rs' →
  foldl record_error last_error (rs ++ r :: rs') = Some (failure_message r).
Proof.
  intros Hr Hrs'. rewrite foldl_app. simpl. rewrite record_error_auth by done.
  destruct r as [x|e]; simpl in *; [done|]. by destruct (exn_cls e).
Qed.

Lemma first_success_calls pre user pwd ip st :
  let st1 := (ssh_run remote ip user pwd COMMAND_IDENTITY
                (after_identities remote pre ip st)).2 in
  ∃ tail,
    calls (wireless_phase remote ip user pwd st1).2
      = calls st ++ (identity_call ip <$> pre)
          ++ identity_call ip (user, pwd) :: tail
    ∧ Forall (λ k, call_ip k = ip ∧ call_credential k = (user, pwd)
                   ∧ call_command k ≠ COMMAND_EXPORT) tail.
Proof.
  intros st1.
  destruct (wireless_phase_calls remote ip user pwd st1) as (tail & -> & Ht).
  exists tail. split; [|done]. unfold st1.
  rewrite ssh_run_calls, after_identities_calls.
  by rewrite <- !app_assoc.
Qed.

(** The prober never raises; it ends in one of two ways. *)
Lemma try_credentials_from_outcome creds ip last_error st :
  (Forall rejected (identity_replies remote creds ip st)
   ∧ try_credentials_from remote creds ip last_error st
       = (Ok (None, ∅,
              default (py "Auth/connection failed")
                (foldl record_error last_error
                   (identity_replies remote creds ip st))),
          after_identities remote creds ip st))
  ∨ (∃ pre user pwd post x,
       creds = pre ++ (user, pwd) :: post
       ∧ Forall rejected (identity_replies remote pre ip st)
       ∧ (ssh_run remote ip user pwd COMMAND_IDENTITY
            (after_identities remote pre ip st)).1 = Ok x
       ∧ x ≠ []
       ∧ let st1 := (ssh_run remote ip user pwd COMMAND_IDENTITY
                       (after_identities remote pre ip st)).2 in
         try_credentials_from remote creds ip last_error st
           = (Ok (Some (user, pwd),
                  probe_outputs x (wireless_phase remote ip user pwd st1).1,
                  []),
              (wireless_phase remote ip user pwd st1).2)).
Proof.
  destruct (identity_replies_cases remote creds ip st)
    as [H | (pre & user & pwd & post & x & -> & H & Hx & Hne)].
  - left. split; [done|]. by apply try_credentials_exhausted.
  - right. exists pre, user, pwd, post, x. repeat split; try done.
    by apply try_credentials_first_success.
Qed.

Lemma probe_outputs_identity x w : probe_outputs x w !! py "identity" = Some x.
Proof.
  unfold probe_outputs. rewrite lookup_insert_ne by done.
  apply lookup_singleton_eq.
Qed.

Lemma probe_outputs_wireless x w : probe_outputs x w !! py "wireless" = Some w.
Proof. unfold probe_outputs. apply lookup_insert_eq. Qed.

(** The calls of a whole probe: this address, a configured credential,
    never the export command. *)
Lemma try_credentials_from_calls creds ip last_error st :
  ∃ new,
    calls (try_credentials_from remote creds ip last_error st).2
      = calls st ++ new
    ∧ Forall (λ k, call_ip k = ip ∧ call_credential k ∈ creds
                   ∧ call_command k ≠ COMMAND_EXPORT) new.
Proof.
  destruct (try_credentials_from_outcome creds ip last_error st)
    as [[_ ->] | (pre & user & pwd & post & x & -> & _ & _ & _ & Heq)].
  - exists (identity_call ip <$> creds). simpl.
    split; [apply after_identities_calls|].
    apply Forall_fmap, Forall_forall. intros [u p] Hin. simpl.
    by repeat split.
  - cbn zeta in Heq. rewrite Heq. cbn [snd].
    destruct (first_success_calls pre user pwd ip st) as (tail & -> & Ht).
    eexists. split; [done|].
    apply Forall_app. split; [|apply Forall_cons; split].
    + apply Forall_fmap, Forall_forall. intros [u p] Hin. simpl.
      repeat split; [|done]. apply elem_of_app. by left.
    + simpl. repeat split; [|done]. apply elem_of_app. right. by left.
    + eapply Forall_impl; [exact Ht|]. intros k (? & -> & ?).
      repeat split; [done| |done]. apply elem_of_app. right. by left.
Qed.

(** The orchestrator never raises; it ends in one of two ways. *)
Lemma process_ip_outcome ip st :
  (∃ e st1,
      try_credentials remote ip st = (Ok (None, ∅, e), st1)
      ∧ process_ip remote time_time round_diff ip st
          = (Ok (Record_ ip (py "FAIL") [] [] [] [] [] e
                   (elapsed time_time round_diff st st1)), st1))
  ∨ (∃ user pwd x w st1 identity ssids radios,
      try_credentials remote ip st
        = (Ok (Some (user, pwd), probe_outputs x w, []), st1)
      ∧ (user, pwd) ∈ CREDENTIALS
      ∧ x ≠ []
      ∧ parse_identity x = Ok identity
      ∧ parse_wireless
          (if truthy w then w else fallback_text remote ip user pwd st1)
          = Ok (ssids, radios)
      ∧ process_ip remote time_time round_diff ip st
          = (Ok (Record_ ip (py "OK") user pwd identity ssids radios []
                   (elapsed time_time round_diff st st1)),
             if truthy w then st1
             else (ssh_run remote ip user pwd COMMAND_EXPORT st1).2)).
Proof.
  unfold try_credentials.
  destruct (try_credentials_from_outcome CREDENTIALS ip None st)
    as [[_ Heq] | (pre & user & pwd & post & x & Hc & _ & _ & Hne & Heq)].
  - left. eexists _, _. split; [exact Heq|].
    eapply process_ip_unauthenticated, Heq.
  - right. cbn zeta in Heq.
    destruct (process_ip_authenticated remote time_time round_diff ip st
                user pwd _ _ _ _ Heq eq_refl)
      as (identity & ssids & radios & Hid & Hpw & Hp).
    rewrite probe_outputs_identity in Hid.
    rewrite probe_outputs_wireless in Hpw, Hp. simpl in Hid, Hpw, Hp.
    eexists user, pwd, x, _, _, identity, ssids, radios.
    split; [exact Heq|]. split.
    { rewrite Hc. apply elem_of_app. right. by left. }
    repeat split; done.
Qed.
End Outcomes.

(** * The specification's claims: session client and prober *)

Section ProberClaims.
Context {World : Type}.
Variable remote : World → call → result (str * str) * World.

Implicit Types (st : state World) (ip user pwd cmd : str).
Implicit Types (creds : list credential).

(** C8, amended. When the command runs, [ssh_run] returns its standard
    output if that holds a character that is not white space, and its
    standard error otherwise (an output of blanks only counts as empty). *)
Theorem ssh_run_stdout_or_stderr ip user pwd cmd st out err w' :
  remote (world st) (Call ip user pwd cmd) = (Ok (out, err), w') →
  (Exists (λ c, isspace c = false) out →
     (ssh_run remote ip user pwd cmd st).1 = Ok out)
  ∧ (Forall (λ c, isspace c = true) out →
     (ssh_run remote ip user pwd cmd st).1 = Ok err).
Proof.
  intros H. rewrite (ssh_run_streams remote _ _ _ _ _ _ _ _ H). cbn [fst].
  destruct (truthy (strip out)) eqn:Ht.
  - split; [done|]. intros Hall. apply (strip_by_nil isspace) in Hall.
    unfold strip in Ht. by rewrite Hall in Ht.
  - split; [|done]. intros Hex. apply truthy_false, strip_by_nil in Ht.
    apply Exists_exists in Hex as (c & Hin & Hc).
    rewrite Forall_forall in Ht. specialize (Ht c Hin). congruence.
Qed.

(** C1, amended. If every credential is rejected with an
    [AuthenticationException], the probe is unauthenticated and its
    error is the default text [Auth/connection failed]: the rejections'
    own reasons are not recorded. *)
Theorem all_auth_errors_default_message creds ip st :
  Forall auth_error (identity_replies remote creds ip st) →
  try_credentials_from remote creds ip None st
    = (Ok (None, ∅, py "Auth/connection failed"),
       after_identities remote creds ip st).
Proof.
  intros H. rewrite try_credentials_exhausted.
  - by rewrite record_error_auth.
  - eapply Forall_impl; [exact H|]. apply auth_error_rejected.
Qed.

(** C2, amended. If no credential authenticates, the probe is
    unauthenticated and its error is the message of the last failure
    that was not an [AuthenticationException]; an empty identity reply
    is such a failure, with the message [Empty response]. The default
    [Auth/connection failed] is reported only when every credential was
    rejected with an [AuthenticationException]. *)
Theorem exhausted_last_error creds ip st :
  Forall rejected (identity_replies remote creds ip st) →
  ∃ last_error,
    try_credentials_from remote creds ip None st
      = (Ok (None, ∅, last_error), after_identities remote creds ip st)
    ∧ (Forall auth_error (identity_replies remote creds ip st) →
         last_error = py "Auth/connection failed")
    ∧ (∀ rs r rs',
         identity_replies remote creds ip st = rs ++ r :: rs' →
         ¬ auth_error r → Forall auth_error rs' →
         last_error = failure_message r).
Proof.
  intros H. eexists. split; [by apply try_credentials_exhausted|]. split.
  - intros Ha. by rewrite record_error_auth.
  - intros rs r rs' -> Hr Hrs'. by rewrite record_error_last.
Qed.

(** C3. Once a credential gets a non-empty identity reply, the
    credentials after it in the list are not used: the probe returns
    that credential, and its calls are one identity command for each
    earlier credential followed by calls that all carry the successful
    one. The same holds for the whole of [process_ip], whose export call
    carries it too. *)
Theorem credential_short_circuit {Seconds : Type}
    (time_time : World → Seconds) (round_diff : Seconds → Seconds → Seconds)
    pre user pwd post ip st x :
  Forall rejected (identity_replies remote pre ip st) →
  (ssh_run remote ip user pwd COMMAND_IDENTITY
     (after_identities remote pre ip st)).1 = Ok x →
  x ≠ [] →
  (∀ last_error, ∃ outputs st' tail,
      try_credentials_from remote (pre ++ (user, pwd) :: post) ip
        last_error st = (Ok (Some (user, pwd), outputs, []), st')
      ∧ calls st' = calls st ++ (identity_call ip <$> pre)
                      ++ identity_call ip (user, pwd) :: tail
      ∧ Forall (λ k, call_credential k = (user, pwd)) tail)
  ∧ (CREDENTIALS = pre ++ (user, pwd) :: post →
     ∃ rec st' tail,
       process_ip remote time_time round_diff ip st = (Ok rec, st')
       ∧ (username rec, password rec) = (user, pwd)
       ∧ calls st' = calls st ++ (identity_call ip <$> pre)
                       ++ identity_call ip (user, pwd) :: tail
       ∧ Forall (λ k, call_credential k = (user, pwd)) tail
       ∧ ∀ c, c ∉ pre → c ≠ (user, pwd) →
              Forall (λ k, call_credential k ≠ c)
                (drop (length (calls st)) (calls st'))).
Proof.
  intros Hrej Hx Hne.
  pose proof (λ le, try_credentials_first_success remote pre user pwd post
                      ip le st x Hrej Hx Hne) as Heq.
  cbn zeta in Heq.
  destruct (first_success_calls remote pre user pwd ip st)
    as (tail & Hcalls & Htail).
  cbn zeta in Hcalls.
  assert (Htail' : Forall (λ k, call_credential k = (user, pwd)) tail).
  { eapply Forall_impl; [exact Htail|]. by intros k (_ & ? & _). }
  split.
  - intros le. eexists _, _, tail. split; [apply Heq|]. by split.
  - intros Hcreds.
    specialize (Heq None). rewrite <- Hcreds in Heq.
    destruct (wireless_phase remote ip user pwd _) as [w st1].
    cbn [fst snd] in Heq, Hcalls.
    destruct (process_ip_authenticated remote time_time round_diff ip st
                user pwd _ _ _ _ Heq eq_refl)
      as (identity & ssids & radios & _ & _ & Hp).
    rewrite probe_outputs_wireless in Hp. cbn [from_option] in Hp.
    unfold id in Hp.
    assert (Hfinal : ∃ tail',
               calls (if truthy w then st1
                      else (ssh_run remote ip user pwd COMMAND_EXPORT st1).2)
                 = calls st ++ (identity_call ip <$> pre)
                     ++ identity_call ip (user, pwd) :: tail'
               ∧ Forall (λ k, call_credential k = (user, pwd)) tail').
    { destruct (truthy w).
      - by exists tail.
      - exists (tail ++ [Call ip user pwd COMMAND_EXPORT]).
        rewrite ssh_run_calls, Hcalls. split.
        + by rewrite <- !app_assoc.
        + apply Forall_app. split; [done|]. by repeat constructor. }
    destruct Hfinal as (tail' & Hc' & Ht').
    eexists _, _, tail'. split; [exact Hp|]. split; [done|].
    split; [exact Hc'|]. split; [done|].
    intros c Hpre Hc. rewrite Hc', drop_app_length.
    apply Forall_app. split; [|apply Forall_cons; split].
    + apply Forall_fmap, Forall_forall. intros [u p] Hin. simpl.
      intros <-. done.
    + intros Hk. apply Hc. by rewrite <- Hk.
    + eapply Forall_impl; [exact Ht'|]. intros k -> Hk. by apply Hc.
Qed.
End ProberClaims.

Lemma ssh_run_stdout_or_stderr_witness :
  (ssh_run blank_device SAMPLE_IP (py "admin") (py "admin") COMMAND_EXPORT
     (State () [])).1 = Ok (py "bad command name").
Proof.
  apply (proj2 (ssh_run_stdout_or_stderr blank_device SAMPLE_IP (py "admin")
                  (py "admin") COMMAND_EXPORT (State () []) (py " ")
                  (py "bad command name") () eq_refl)).
  by repeat constructor.
Defined.

(** C8 as stated fails: a standard output of one blank is not empty, yet
    [ssh_run] returns the standard error. *)
Lemma ssh_run_blank_stdout :
  let reply := (ssh_run blank_device SAMPLE_IP (py "admin") (py "admin")
                  COMMAND_EXPORT (State () [])).1 in
  blank_device () (Call SAMPLE_IP (py "admin") (py "admin") COMMAND_EXPORT)
    = (Ok (py " ", py "bad command name"), ())
  ∧ py " " ≠ []
  ∧ reply = Ok (py "bad command name")
  ∧ reply ≠ Ok (py " ").
Proof. by vm_compute. Qed.

Lemma all_auth_errors_default_message_witness :
  try_credentials rejecting_device SAMPLE_IP (State () [])
  = (Ok (None, ∅, py "Auth/connection failed"),
     after_identities rejecting_device CREDENTIALS SAMPLE_IP (State () [])).
Proof.
  apply (all_auth_errors_default_message rejecting_device CREDENTIALS
           SAMPLE_IP (State () [])).
  by repeat constructor.
Defined.

(** C1 as stated fails: every credential is rejected with the reason
    [Authentication failed.], and the reported error is another text. *)
Lemma all_rejected_reason_dropped :
  Forall (λ r, r = Raised (Exn AuthenticationException
                             (py "Authentication failed.")))
    (identity_replies rejecting_device CREDENTIALS SAMPLE_IP (State () []))
  ∧ (try_credentials rejecting_device SAMPLE_IP (State () [])).1
    = Ok (None, ∅, py "Auth/connection failed")
  ∧ py "Auth/connection failed" ≠ py "Authentication failed.".
Proof. split; [by repeat constructor|]. by vm_compute. Qed.

Lemma exhausted_last_error_witness :
  ∃ last_error,
    try_credentials silent_device SAMPLE_IP (State () [])
      = (Ok (None, ∅, last_error),
         after_identities silent_device CREDENTIALS SAMPLE_IP (State () []))
    ∧ last_error = py "Empty response".
Proof.
  destruct (exhausted_last_error silent_device CREDENTIALS SAMPLE_IP
              (State () [])) as (e & Heq & _ & Hlast).
  - by repeat constructor.
  - exists e. split; [exact Heq|].
    apply (Hlast [Ok []; Ok []; Ok []] (Ok []) []).
    + reflexivity.
    + simpl. tauto.
    + constructor.
Defined.

(** C2 as stated fails: when every identity reply is empty the error is
    [Empty response], not the default text. *)
Lemma all_empty_reports_empty_response :
  Forall (λ r, r = Ok [])
    (identity_replies silent_device CREDENTIALS SAMPLE_IP (State () []))
  ∧ (try_credentials silent_device SAMPLE_IP (State () [])).1
    = Ok (None, ∅, py "Empty response")
  ∧ py "Empty response" ≠ py "authentication/connection failed"
  ∧ py "Empty response" ≠ py "Auth/connection failed".
Proof. split; [by repeat constructor|]. by vm_compute. Qed.

Lemma credential_short_circuit_witness :
  ∃ rec st',
    process_ip export_only_device still_clock nat_diff SAMPLE_IP (State () [])
      = (Ok rec, st')
    ∧ (username rec, password rec) = (py "admin", py "Admin")
    ∧ Forall (λ k, call_credential k ≠ (py "admin", py "ADmin")) (calls st').
Proof.
  destruct (proj2 (credential_short_circuit export_only_device still_clock
                     nat_diff [(py "admin", py "kol5ara")] (py "admin")
                     (py "Admin")
                     [(py "admin", py "ADmin"); (py "admin", py "admin")]
                     SAMPLE_IP (State () []) (py "name: R1")
                     ltac:(by repeat constructor) eq_refl ltac:(done))
              eq_refl)
    as (rec & st' & tail & Hp & Hu & _ & _ & Hno).
  exists rec, st'. split; [exact Hp|]. split; [exact Hu|].
  apply (Hno (py "admin", py "ADmin")).
  - intros Hin. apply list_elem_of_singleton in Hin. discriminate Hin.
  - discriminate.
Defined.

(** * The specification's claims: orchestrator and worker pool *)

Lemma filter_none {A} (P : A → Prop) `{∀ x, Decision (P x)} (l : list A) :
  Forall (λ x, ¬ P x) l → filter P l = [].
Proof.
  induction 1 as [|x l Hx _ IH]; [done|].
  rewrite filter_cons. by destruct (decide (P x)).
Qed.

Lemma concat_LF_join (ls : list str) :
  ls ≠ [] → concat ((λ l, LF :: l) <$> ls) = LF :: join [LF] ls.
Proof.
  induction ls as [|l ls IH]; [done|]. intros _. destruct ls as [|l2 ls].
  - simpl. by rewrite app_nil_r.
  - change (concat ((λ l, LF :: l) <$> l :: l2 :: ls))
      with (LF :: l ++ concat ((λ l, LF :: l) <$> l2 :: ls)).
    by rewrite IH.
Qed.

Lemma marked_nonempty l : marked l = true → l ≠ [].
Proof. by intros H ->. Qed.

(** The lines of the text fed to the wireless parser: an empty first
    line, then the marked lines of the export in their order. *)
Lemma splitlines_marked raw :
  let kept := filter (λ l, marked l = true) (splitlines raw) in
  splitlines (concat ((λ l, LF :: l) <$> kept))
    = match kept with [] => [] | _ => [] :: kept end.
Proof.
  intros kept. destruct kept as [|l ls] eqn:E; [done|].
  rewrite concat_LF_join by done.
  change (splitlines (LF :: ?s)) with ([] :: splitlines s).
  rewrite splitlines_join; [done| |].
  - apply Forall_forall. intros x Hx. apply (splitlines_nobreak x raw).
    assert (Hk : x ∈ kept) by by rewrite E.
    by apply list_elem_of_filter in Hk as [_ ?].
  - apply Forall_forall. intros x Hx. apply marked_nonempty.
    assert (Hk : x ∈ kept) by by rewrite E.
    by apply list_elem_of_filter in Hk as [? _].
Qed.

Lemma join_nonempty sep (l : list str) :
  l ≠ [] → Forall (λ x, x ≠ []) l → join sep l ≠ [].
Proof.
  destruct l as [|x l]; [done|]. intros _ H.
  apply Forall_cons in H as [Hx _]. destruct l; simpl; [done|].
  by destruct x.
Qed.

(** A line with a value after [radio-name=] makes the field non-empty. *)
Lemma radio_names_nonempty fed line a q c b ssids radios :
  parse_wireless fed = Ok (ssids, radios) →
  line ∈ splitlines fed →
  line = a ++ py "radio-name=" ++ q ++ c :: b →
  q = [] ∨ q = [QUOTE] → not_quote_space c = true →
  radios ≠ [].
Proof.
  intros Hpw Hin -> Hq Hc.
  destruct (parse_wireless_sets fed) as (s & r & Heq & _ & Hr).
  rewrite Heq in Hpw. injection Hpw as _ <-.
  destruct (search_quoted_or_bare_found (py "radio-name=") a q c b Hq Hc)
    as [g Hg].
  destruct (search_quoted_or_bare_inv _ _ _ Hg) as (t & -> & Ht & _).
  assert (Hin_r : t ∈ r).
  { apply Hr. eexists. split; [exact Hin|]. split; [|exact Hg].
    apply contains_spec. eauto. }
  apply join_nonempty.
  - apply (proj2 (sorted_elem_of r t)) in Hin_r.
    intros Hnil. rewrite Hnil in Hin_r. by apply elem_of_nil in Hin_r.
  - apply Forall_forall. intros y Hy. apply sorted_elem_of, Hr in Hy.
    destruct Hy as (l & _ & _ & Hs).
    change RE_RADIO_NAME with (quoted_or_bare (py "radio-name=")) in Hs.
    destruct (search_quoted_or_bare_inv _ _ _ Hs) as (t' & [= <-] & Hne & _).
    done.
Qed.

Section OrchestratorClaims.
Context {World : Type}.
Variable remote : World → call → result (str * str) * World.
Context {Seconds : Type}.
Variable time_time : World → Seconds.
Variable round_diff : Seconds → Seconds → Seconds.
Variable ip_like_token : str → option str.
Variable ip_address_ok : str → bool.

Implicit Types (st : state World) (addr user pwd cmd : str).


(** C10. A record returned by [process_ip] has status [OK] or [FAIL].
    With [FAIL] its user name, password, identity, SSIDs and radio names
    are empty. With [OK] its error is empty and its user name and
    password are the configured credential the probe returned. *)
Theorem process_ip_record addr st rec st' :
  process_ip remote time_time round_diff addr st = (Ok rec, st') →
  (status rec = py "OK" ∨ status rec = py "FAIL")
  ∧ (status rec = py "FAIL" →
       username rec = [] ∧ password rec = [] ∧ system_identity rec = []
       ∧ ssids rec = [] ∧ radio_names rec = [])
  ∧ (status rec = py "OK" →
       error rec = []
       ∧ (username rec, password rec) ∈ CREDENTIALS
       ∧ ∃ outputs st1,
           try_credentials remote addr st
             = (Ok (Some (username rec, password rec), outputs, []), st1)).
Proof.
  intros Hp.
  destruct (process_ip_outcome remote time_time round_diff addr st)
    as [(e & st1 & _ & Heq)
       | (user & pwd & x & w & st1 & identity & ssids & radios
          & Htc & Hin & _ & _ & _ & Heq)];
    rewrite Heq in Hp; injection Hp as <- _; cbn.
  - split; [by right|]. split; [done|]. intros H. discriminate H.
  - split; [by left|]. split; [intros H; discriminate H|].
    intros _. split; [done|]. split; [done|]. eauto.
Qed.

Lemma load_ip_list_from (series acc : list str) :
  let step := λ (ips : list str) (val : str),
    match ip_like_token val with
    | None => ips
    | Some candidate =>
        if ip_address_ok candidate then
          if decide (candidate ∈ ips) then ips else ips ++ [candidate]
        else ips
    end in
  NoDup acc →
  NoDup (foldl step acc series)
  ∧ ∀ a, a ∈ foldl step acc series ↔
         a ∈ acc ∨ ∃ val, val ∈ series ∧ ip_like_token val = Some a
                          ∧ ip_address_ok a = true.
Proof.
  intros step. revert acc.
  induction series as [|val rest IH]; intros acc Hacc; simpl.
  - split; [done|]. intros a. split; [by left|].
    intros [? | (v & Hv & _)]; [done | by apply elem_of_nil in Hv].
  - assert (Hstep : NoDup (step acc val)
              ∧ ∀ a, a ∈ step acc val ↔
                     a ∈ acc ∨ (ip_like_token val = Some a
                                ∧ ip_address_ok a = true)).
    { unfold step. destruct (ip_like_token val) as [cand|] eqn:Ht.
      - destruct (ip_address_ok cand) eqn:Hok.
        + destruct (decide (cand ∈ acc)) as [Hin | Hnin].
          * split; [done|]. intros a. split; [by left|].
            intros [? | [[= <-] _]]; done.
          * split.
            { apply NoDup_app. split; [done|]. split; [|apply NoDup_singleton].
              intros y Hy Hy'. apply list_elem_of_singleton in Hy'. by subst. }
            intros a. rewrite elem_of_app, list_elem_of_singleton.
            split; [intros [? | ->]; [by left | by right]|].
            intros [? | [[= <-] _]]; [by left | by right].
        + split; [done|]. intros a. split; [by left|].
          intros [? | [[= <-] ?]]; [done | congruence].
      - split; [done|]. intros a. split; [by left|]. by intros [? | [? _]]. }
    destruct Hstep as [Hnd Hmem].
    destruct (IH (step acc val) Hnd) as [IH1 IH2]. split; [done|].
    intros a. rewrite IH2, Hmem. split.
    + intros [[? | [? ?]] | (v & Hv & ?)]; [by left | right | right].
      * exists val. split; [by left | done].
      * exists v. split; [by right | done].
    + intros [? | (v & Hv & Ht & Hok)]; [by left; left|].
      apply elem_of_cons in Hv as [-> | Hv]; [left; by right|].
      right. by exists v.
Qed.

Lemma gather_imap {A B} (f : nat → A → result B) (g : B → A)
    (l : list A) (acc : list B) :
  (∀ i a, ∃ b, f i a = Ok b ∧ g b = a) →
  ∃ results, gather (imap f l) acc = Ok (acc ++ results) ∧ g <$> results = l.
Proof.
  revert f acc. induction l as [|a l IH]; intros f acc Hf.
  - exists []. by rewrite app_nil_r.
  - rewrite imap_cons. destruct (Hf 0 a) as (b & Hb & Hg).
    cbn [gather]. rewrite Hb.
    destruct (IH (f ∘ S) (acc ++ [b])) as (results & -> & Hres).
    { intros i a'. apply Hf. }
    exists (b :: results). rewrite <- app_assoc. split; [done|].
    by rewrite fmap_cons, Hg, Hres.
Qed.

Lemma gather_imap_lookup {A B} (f : nat → A → result B) (g : B → A)
    (l : list A) (acc : list B) :
  (∀ i a, ∃ b, f i a = Ok b ∧ g b = a) →
  ∃ results,
    gather (imap f l) acc = Ok (acc ++ results)
    ∧ g <$> results = l
    ∧ ∀ i b, results !! i = Some b →
             ∃ a, l !! i = Some a ∧ f i a = Ok b.
Proof.
  revert f acc. induction l as [|a l IH]; intros f acc Hf.
  - exists []. rewrite app_nil_r. by repeat split.
  - rewrite imap_cons. destruct (Hf 0 a) as (b & Hb & Hg).
    cbn [gather]. rewrite Hb.
    destruct (IH (f ∘ S) (acc ++ [b])) as (results & -> & Hres & Hlook).
    { intros i a'. apply Hf. }
    exists (b :: results). rewrite <- app_assoc. split; [done|].
    split; [by rewrite fmap_cons, Hg, Hres|].
    intros [|i] b'; cbn [lookup list_lookup].
    + intros [= <-]. by exists a.
    + intros Hi. by apply Hlook in Hi.
Qed.

(** C4. Each call of [process_ip] returns one record, for the address
    it was given, with status [OK] or [FAIL]; it never raises. [main]
    collects one record per loaded address, in the order of the list:
    the record at each place is the one [process_ip] returned for the
    address at that place; and the loaded list holds each valid address
    of the column once. *)
Theorem one_record_per_address :
  (∀ addr st, ∃ rec st',
      process_ip remote time_time round_diff addr st = (Ok rec, st')
      ∧ ip rec = addr
      ∧ (status rec = py "OK" ∨ status rec = py "FAIL"))
  ∧ (∀ series view, ∃ results,
      main_results remote time_time round_diff ip_like_token ip_address_ok
        series view = Ok results
      ∧ ip <$> results = load_ip_list ip_like_token ip_address_ok series
      ∧ NoDup (load_ip_list ip_like_token ip_address_ok series)
      ∧ (∀ a, a ∈ load_ip_list ip_like_token ip_address_ok series ↔
              ∃ val, val ∈ series ∧ ip_like_token val = Some a
                     ∧ ip_address_ok a = true)
      ∧ (∀ i rec, results !! i = Some rec →
           ∃ addr,
             load_ip_list ip_like_token ip_address_ok series !! i
               = Some addr
             ∧ (process_ip remote time_time round_diff addr
                  (State (view i) [])).1 = Ok rec)).
Proof.
  assert (Hone : ∀ addr st, ∃ rec st',
             process_ip remote time_time round_diff addr st = (Ok rec, st')
             ∧ ip rec = addr
             ∧ (status rec = py "OK" ∨ status rec = py "FAIL")).
  { intros addr st.
    destruct (process_ip_outcome remote time_time round_diff addr st)
      as [(e & st1 & _ & Heq)
         | (user & pwd & x & w & st1 & identity & ssids & radios
            & _ & _ & _ & _ & _ & Heq)];
      rewrite Heq; eexists _, _; (split; [done|]); cbn; auto. }
  split; [exact Hone|]. intros series view.
  unfold main_results, pool_map.
  destruct (gather_imap_lookup
              (λ i a, (process_ip remote time_time round_diff a
                         (State (view i) [])).1)
              ip (load_ip_list ip_like_token ip_address_ok series) [])
    as (results & Hres & Hips & Hlook).
  { intros i a. destruct (Hone a (State (view i) [])) as (rec & st' & Heq & Hip & _).
    exists rec. by rewrite Heq. }
  exists results. split; [exact Hres|]. split; [exact Hips|].
  destruct (load_ip_list_from series [] NoDup_nil_2) as [Hnd Hmem].
  split; [exact Hnd|]. split.
  - intros a. unfold load_ip_list. rewrite Hmem.
    rewrite elem_of_nil. tauto.
  - exact Hlook.
Qed.
End OrchestratorClaims.


Lemma process_ip_record_witness :
  ∃ rec : DeviceRecord nat,
    status rec = py "FAIL"
    ∧ username rec = [] ∧ password rec = [] ∧ system_identity rec = []
    ∧ ssids rec = [] ∧ radio_names rec = [].
Proof.
  eexists. split; [|
    apply (proj1 (proj2 (process_ip_record rejecting_device still_clock nat_diff
                           SAMPLE_IP (State () []) _ _ eq_refl)))];
    reflexivity.
Defined.

(** * Further properties: session client, prober and orchestrator *)

Section ProberExtras.
Context {World : Type}.
Variable remote : World → call → result (str * str) * World.
Context {Seconds : Type}.
Variable time_time : World → Seconds.
Variable round_diff : Seconds → Seconds → Seconds.

Implicit Types (st : state World) (addr user pwd cmd : str).
Implicit Types (creds : list credential) (outputs : gmap str str).

Lemma wireless_phase_tail addr user pwd st :
  let primary := Call addr user pwd COMMAND_WIRELESS in
  let alternate := Call addr user pwd COMMAND_WIRELESS_ALT in
  calls (wireless_phase remote addr user pwd st).2 = calls st ++ [primary]
  ∨ calls (wireless_phase remote addr user pwd st).2
    = calls st ++ [primary; alternate].
Proof.
  intros primary alternate. unfold wireless_phase.
  pose proof (ssh_run_calls remote addr user pwd COMMAND_WIRELESS st) as H1.
  destruct (ssh_run remote addr user pwd COMMAND_WIRELESS st) as [r1 st1].
  simpl in H1. destruct (truthy _); [by left|]. right.
  pose proof (ssh_run_calls remote addr user pwd COMMAND_WIRELESS_ALT st1)
    as H2.
  destruct (ssh_run remote addr user pwd COMMAND_WIRELESS_ALT st1)
    as [r2 st2].
  simpl in *. by rewrite H2, H1, <- app_assoc.
Qed.

(** X1. An identity command whose standard output is blank is judged by
    its standard error: any text there authenticates the credential and
    becomes the identity text; with nothing there either, the credential
    is passed over and [Empty response] is recorded. *)
Theorem identity_reply_streams user pwd rest addr last_error st out err w' :
  remote (world st) (Call addr user pwd COMMAND_IDENTITY)
    = (Ok (out, err), w') →
  Forall (λ c, isspace c = true) out →
  (err ≠ [] →
     ∃ outputs st',
       try_credentials_from remote ((user, pwd) :: rest) addr last_error st
         = (Ok (Some (user, pwd), outputs, []), st')
       ∧ outputs !! py "identity" = Some err)
  ∧ (err = [] →
     try_credentials_from remote ((user, pwd) :: rest) addr last_error st
       = try_credentials_from remote rest addr (Some (py "Empty response"))
           (State w' (calls st ++ [Call addr user pwd COMMAND_IDENTITY]))).
Proof.
  intros Hr Hout.
  pose proof (ssh_run_streams remote _ _ _ _ _ _ _ _ Hr) as Hrun.
  apply (strip_by_nil isspace) in Hout. unfold strip in Hrun.
  rewrite Hout in Hrun. cbn [truthy] in Hrun. split.
  - intros Herr. eexists _, _. split.
    + by apply (try_credentials_step_success remote user pwd rest addr
                  last_error st err _ Hrun).
    + apply probe_outputs_identity.
  - intros ->.
    by rewrite (try_credentials_step_rejected remote user pwd rest addr
                  last_error st (Ok []) _ Hrun).
Qed.

(** X2. Once the identity reply is in, the outcome is authenticated
    whatever the wireless commands do, and [outputs] has exactly the keys
    [identity] and [wireless]. The alternate wireless command is run
    only if the primary one raised or returned nothing; a command that
    raises counts as empty text. *)
Theorem alternate_wireless_only_when_needed
    user pwd rest addr last_error st x st1 :
  ssh_run remote addr user pwd COMMAND_IDENTITY st = (Ok x, st1) →
  x ≠ [] →
  let text := λ r : result str,
                match r with Ok t => t | Raised _ => [] end in
  let primary := ssh_run remote addr user pwd COMMAND_WIRELESS st1 in
  let alternate :=
    ssh_run remote addr user pwd COMMAND_WIRELESS_ALT primary.2 in
  ∃ outputs st',
    try_credentials_from remote ((user, pwd) :: rest) addr last_error st
      = (Ok (Some (user, pwd), outputs, []), st')
    ∧ dom outputs = {[ py "identity"; py "wireless" ]}
    ∧ outputs !! py "identity" = Some x
    ∧ (text primary.1 ≠ [] →
         outputs !! py "wireless" = Some (text primary.1)
         ∧ calls st'
           = calls st1 ++ [Call addr user pwd COMMAND_WIRELESS])
    ∧ (text primary.1 = [] →
         outputs !! py "wireless" = Some (text alternate.1)
         ∧ calls st'
           = calls st1 ++ [Call addr user pwd COMMAND_WIRELESS;
                           Call addr user pwd COMMAND_WIRELESS_ALT]).
Proof.
  intros Hid Hx text primary alternate.
  eexists _, _. split.
  { by apply (try_credentials_step_success remote user pwd rest addr
                last_error st x st1 Hid). }
  split.
  { unfold probe_outputs. rewrite dom_insert_L, dom_singleton_L.
    apply set_eq. intros k. rewrite !elem_of_union, !elem_of_singleton.
    tauto. }
  split; [apply probe_outputs_identity|].
  rewrite probe_outputs_wireless. unfold wireless_phase.
  subst alternate primary.
  pose proof (ssh_run_calls remote addr user pwd COMMAND_WIRELESS st1) as H1.
  destruct (ssh_run remote addr user pwd COMMAND_WIRELESS st1)
    as [r1 st2]. cbn [fst snd] in *.
  fold (text r1).
  pose proof (ssh_run_calls remote addr user pwd COMMAND_WIRELESS_ALT st2)
    as H2.
  destruct (truthy (text r1)) eqn:Ht.
  - split; [done|]. intros Hnil. apply truthy_true in Ht. done.
  - split; [intros Hne; by apply truthy_false in Ht|]. intros _.
    destruct (ssh_run remote addr user pwd COMMAND_WIRELESS_ALT st2)
      as [r2 st3]. cbn [fst snd] in *.
    split; [done|]. by rewrite H2, H1, <- app_assoc.
Qed.

Lemma try_credentials_from_budget creds addr last_error st :
  ∃ new,
    calls (try_credentials_from remote creds addr last_error st).2
      = calls st ++ new
    ∧ length new ≤ length creds + 2
    ∧ Forall (λ k, call_ip k = addr ∧ call_credential k ∈ creds
                   ∧ call_command k ∈ [COMMAND_IDENTITY; COMMAND_WIRELESS;
                                       COMMAND_WIRELESS_ALT]) new.
Proof.
  destruct (try_credentials_from_outcome remote creds addr last_error st)
    as [[_ ->] | (pre & user & pwd & post & x & -> & _ & _ & _ & Heq)].
  - exists (identity_call addr <$> creds). cbn [snd].
    split; [apply after_identities_calls|].
    split; [rewrite length_fmap; lia|].
    apply Forall_fmap, Forall_forall. intros [u p] Hin. simpl.
    repeat split; [done|]. by left.
  - cbn zeta in Heq. rewrite Heq. cbn [snd].
    set (st1 := (ssh_run remote addr user pwd COMMAND_IDENTITY
                   (after_identities remote pre addr st)).2).
    assert (Hst1 : calls st1 = calls st ++ (identity_call addr <$> pre)
                                 ++ [identity_call addr (user, pwd)]).
    { unfold st1. rewrite ssh_run_calls, after_identities_calls.
      by rewrite <- app_assoc. }
    assert (Hpre : Forall (λ k, call_ip k = addr
                 ∧ call_credential k ∈ pre ++ (user, pwd) :: post
                 ∧ call_command k ∈ [COMMAND_IDENTITY; COMMAND_WIRELESS;
                                     COMMAND_WIRELESS_ALT])
               ((identity_call addr <$> pre)
                  ++ [identity_call addr (user, pwd)])).
    { apply Forall_app. split.
      - apply Forall_fmap, Forall_forall. intros [u p] Hin. simpl.
        repeat split; [|by left]. apply elem_of_app. by left.
      - repeat constructor. simpl. apply elem_of_app. right. by left. }
    assert (Hmine : (user, pwd) ∈ pre ++ (user, pwd) :: post).
    { apply elem_of_app. right. by left. }
    assert (Htail : ∃ tail,
               calls (wireless_phase remote addr user pwd st1).2
                 = calls st1 ++ tail
               ∧ length tail ≤ 2
               ∧ Forall (λ k, call_ip k = addr
                   ∧ call_credential k ∈ pre ++ (user, pwd) :: post
                   ∧ call_command k ∈ [COMMAND_IDENTITY; COMMAND_WIRELESS;
                                       COMMAND_WIRELESS_ALT]) tail).
    { destruct (wireless_phase_tail addr user pwd st1) as [Hc | Hc];
        cbn zeta in Hc; eexists; (split; [exact Hc|]);
        (split; [simpl; lia|]); repeat constructor; simpl; try done;
        rewrite !elem_of_cons; tauto. }
    destruct Htail as (tail & -> & Hlen & Htail). rewrite Hst1.
    exists (((identity_call addr <$> pre)
               ++ [identity_call addr (user, pwd)]) ++ tail).
    split; [by rewrite <- !app_assoc|]. split.
    + rewrite !length_app, length_fmap. cbn [length]. lia.
    + by apply Forall_app.
Qed.

(** X3. For one address [process_ip] opens at most seven sessions (one
    identity command per configured credential, two wireless commands,
    one export), all of them to that address, with a configured
    credential and one of the four configured commands. *)
Theorem process_ip_call_budget addr st :
  ∃ new,
    calls (process_ip remote time_time round_diff addr st).2
      = calls st ++ new
    ∧ length new ≤ 7
    ∧ Forall (λ k, call_ip k = addr ∧ call_credential k ∈ CREDENTIALS
                   ∧ call_command k ∈ [COMMAND_IDENTITY; COMMAND_WIRELESS;
                                       COMMAND_WIRELESS_ALT; COMMAND_EXPORT])
        new.
Proof.
  destruct (try_credentials_from_budget CREDENTIALS addr None st)
    as (new & Hnew & Hlen & Hall).
  fold (try_credentials remote addr st) in Hnew.
  change (length CREDENTIALS) with 4 in Hlen.
  assert (Hall' : Forall (λ k, call_ip k = addr
                ∧ call_credential k ∈ CREDENTIALS
                ∧ call_command k ∈ [COMMAND_IDENTITY; COMMAND_WIRELESS;
                                    COMMAND_WIRELESS_ALT; COMMAND_EXPORT])
              new).
  { eapply Forall_impl; [exact Hall|]. intros k (? & ? & Hc).
    repeat split; [done..|].
    rewrite !elem_of_cons in Hc. rewrite !elem_of_cons. tauto. }
  destruct (process_ip_outcome remote time_time round_diff addr st)
    as [(e & st1 & Htc & Heq)
       | (user & pwd & x & w & st1 & identity & ssids & radios
          & Htc & Hin & _ & _ & _ & Heq)];
    rewrite Heq; rewrite Htc in Hnew; cbn [snd] in *.
  - exists new. split; [done|]. split; [lia | done].
  - destruct (truthy w).
    + exists new. split; [done|]. split; [lia | done].
    + exists (new ++ [Call addr user pwd COMMAND_EXPORT]).
      rewrite ssh_run_calls, Hnew, <- app_assoc. split; [done|].
      rewrite length_app. cbn [length]. split; [lia|].
      apply Forall_app. split; [done|]. apply Forall_singleton. simpl.
      split; [done|]. split; [done|]. rewrite !elem_of_cons. tauto.
Qed.

(** X4. A [FAIL] record means that every configured credential was
    tried once, in the configured order, with the identity command, that
    each of these replies was a rejection, an error or empty, and that
    no other command was run. *)
Theorem fail_record_calls addr st rec st' :
  process_ip remote time_time round_diff addr st = (Ok rec, st') →
  status rec = py "FAIL" →
  calls st' = calls st ++ (identity_call addr <$> CREDENTIALS)
  ∧ Forall rejected (identity_replies remote CREDENTIALS addr st)
  ∧ error rec
    = default (py "Auth/connection failed")
        (foldl record_error None
           (identity_replies remote CREDENTIALS addr st)).
Proof.
  intros Hp Hs.
  destruct (try_credentials_from_outcome remote CREDENTIALS addr None st)
    as [[Hrej Heq] | (pre & user & pwd & post & x & _ & _ & _ & _ & Heq)].
  - fold (try_credentials remote addr st) in Heq.
    rewrite (process_ip_unauthenticated remote time_time round_diff
               addr st _ _ _ Heq) in Hp.
    apply pair_equal_spec in Hp as [Hrec Hst']. subst st'.
    injection Hrec as <-. cbn [error].
    split; [apply after_identities_calls|]. by split.
  - cbn zeta in Heq. fold (try_credentials remote addr st) in Heq.
    destruct (process_ip_authenticated remote time_time round_diff addr st
                user pwd _ _ _ _ Heq eq_refl)
      as (identity & ssids & radios & _ & _ & Heq').
    rewrite Heq' in Hp. injection Hp as <- _. discriminate Hs.
Qed.

(** X5. When the probe resolved some wireless text, [process_ip] does
    not run the export command: it makes no call beyond the probe's, and
    the record's wireless fields are parsed from that text alone. *)
Theorem no_export_when_wireless_found addr st user pwd outputs e st1 w :
  try_credentials remote addr st
    = (Ok (Some (user, pwd), outputs, e), st1) →
  outputs !! py "wireless" = Some w → w ≠ [] →
  ∃ rec,
    process_ip remote time_time round_diff addr st = (Ok rec, st1)
    ∧ parse_wireless w = Ok (ssids rec, radio_names rec)
    ∧ Forall (λ k, call_command k ≠ COMMAND_EXPORT)
        (drop (length (calls st)) (calls st1)).
Proof.
  intros Htc Hw Hne.
  destruct (process_ip_authenticated remote time_time round_diff addr st
              user pwd outputs e st1 w Htc)
    as (identity & ssids & radios & _ & Hpw & Hp).
  { by rewrite Hw. }
  apply truthy_true in Hne. rewrite Hne in Hpw, Hp.
  eexists. split; [exact Hp|]. split; [exact Hpw|].
  destruct (try_credentials_from_calls remote CREDENTIALS addr None st)
    as (new & Hnew & Hall).
  fold (try_credentials remote addr st) in Hnew. rewrite Htc in Hnew.
  cbn [snd] in Hnew. rewrite Hnew, drop_app_length.
  eapply Forall_impl; [exact Hall|]. by intros k (_ & _ & ?).
Qed.

(** X6. The [seconds] of a record is the time the credential probe
    took: the clock is read before [try_credentials] and right after it,
    so the export fallback, when it runs, is not counted. *)
Theorem seconds_cover_the_probe_only addr st rec st' :
  process_ip remote time_time round_diff addr st = (Ok rec, st') →
  seconds rec
  = round_diff
      (time_time (world (try_credentials remote addr st).2))
      (time_time (world st)).
Proof.
  intros Hp.
  destruct (process_ip_outcome remote time_time round_diff addr st)
    as [(e & st1 & Htc & Heq)
       | (user & pwd & x & w & st1 & identity & ssids & radios
          & Htc & _ & _ & _ & _ & Heq)];
    rewrite Heq in Hp; injection Hp as <- _; by rewrite Htc.
Qed.
End ProberExtras.

Lemma identity_reply_streams_witness :
  ∃ outputs st',
    try_credentials_from blank_device [(py "admin", py "admin")] SAMPLE_IP
      None (State () [])
      = (Ok (Some (py "admin", py "admin"), outputs, []), st')
    ∧ outputs !! py "identity" = Some (py "bad command name").
Proof.
  apply (proj1 (identity_reply_streams blank_device (py "admin") (py "admin")
                  [] SAMPLE_IP None (State () []) (py " ")
                  (py "bad command name") () eq_refl
                  ltac:(by repeat constructor))).
  done.
Defined.

Lemma alternate_wireless_only_when_needed_witness :
  ∃ outputs st',
    try_credentials_from export_only_device [(py "admin", py "Admin")]
      SAMPLE_IP None (State () [])
      = (Ok (Some (py "admin", py "Admin"), outputs, []), st')
    ∧ outputs !! py "identity" = Some (py "name: R1")
    ∧ calls st'
      = [Call SAMPLE_IP (py "admin") (py "Admin") COMMAND_IDENTITY;
         Call SAMPLE_IP (py "admin") (py "Admin") COMMAND_WIRELESS;
         Call SAMPLE_IP (py "admin") (py "Admin") COMMAND_WIRELESS_ALT].
Proof.
  destruct (alternate_wireless_only_when_needed export_only_device
              (py "admin") (py "Admin") [] SAMPLE_IP None (State () [])
              (py "name: R1")
              (State () [Call SAMPLE_IP (py "admin") (py "Admin")
                           COMMAND_IDENTITY])
              eq_refl ltac:(done))
    as (outputs & st' & Heq & _ & Hid & _ & Halt).
  exists outputs, st'. split; [exact Heq|]. split; [exact Hid|].
  by destruct (Halt eq_refl) as [_ ->].
Defined.

Lemma fail_record_calls_witness :
  ∃ (rec : DeviceRecord nat) st',
    process_ip rejecting_device still_clock nat_diff SAMPLE_IP (State () [])
      = (Ok rec, st')
    ∧ calls st' = [] ++ (identity_call SAMPLE_IP <$> CREDENTIALS).
Proof.
  eexists _, _. split; [reflexivity|].
  apply (fail_record_calls rejecting_device still_clock nat_diff SAMPLE_IP
           (State () []) _ _ eq_refl eq_refl).
Defined.

Lemma no_export_when_wireless_found_witness :
  ∃ rec : DeviceRecord nat,
    (process_ip listing_device still_clock nat_diff SAMPLE_IP
       (State () [])).1 = Ok rec
    ∧ Ok (ssids rec, radio_names rec) = Ok (py "lab", py "r2").
Proof.
  destruct (no_export_when_wireless_found listing_device still_clock nat_diff
              SAMPLE_IP (State () []) (py "admin") (py "kol5ara")
              (probe_outputs (py "name: R2") (py "0 ssid=lab radio-name=r2"))
              []
              (State ()
                 [identity_call SAMPLE_IP (py "admin", py "kol5ara");
                  Call SAMPLE_IP (py "admin") (py "kol5ara") COMMAND_WIRELESS])
              (py "0 ssid=lab radio-name=r2") eq_refl eq_refl ltac:(done))
    as (rec & Hp & Hpw & _).
  exists rec. rewrite Hp. split; [done|]. rewrite <- Hpw. reflexivity.
Defined.

Lemma seconds_cover_the_probe_only_witness :
  ∃ (rec : DeviceRecord nat) st',
    process_ip export_only_device still_clock nat_diff SAMPLE_IP (State () [])
      = (Ok rec, st')
    ∧ seconds rec
      = nat_diff
          (still_clock
             (world (try_credentials export_only_device SAMPLE_IP
                       (State () [])).2))
          (still_clock ()).
Proof.
  eexists _, _. split; [reflexivity|].
  apply (seconds_cover_the_probe_only export_only_device still_clock nat_diff
           SAMPLE_IP (State () []) _ _ eq_refl).
Defined.

(** * Further properties: output parser *)

Lemma marked_of_contains (l : str) :
  contains (py "ssid=") l = true ∨ contains (py "radio-name=") l = true →
  marked l = true.
Proof. unfold marked. intros [-> | ->]; [done | apply orb_true_r]. Qed.

Lemma parse_wireless_marked_lines raw1 raw2 :
  (∀ l, marked l = true → l ∈ splitlines raw1 ↔ l ∈ splitlines raw2) →
  parse_wireless raw1 = parse_wireless raw2.
Proof.
  intros Hl.
  destruct (parse_wireless_sets raw1) as (s1 & r1 & -> & Hs1 & Hr1).
  destruct (parse_wireless_sets raw2) as (s2 & r2 & -> & Hs2 & Hr2).
  assert (s1 = s2) as ->.
  { apply set_eq. intros t. rewrite Hs1, Hs2. unfold tokens_of.
    split; intros (l & Hin & Hc & H); exists l;
      (split; [apply Hl; [apply marked_of_contains; by left | done] | done]). }
  assert (r1 = r2) as ->.
  { apply set_eq. intros t. rewrite Hr1, Hr2. unfold tokens_of.
    split; intros (l & Hin & Hc & H); exists l;
      (split; [apply Hl; [apply marked_of_contains; by right | done] | done]). }
  done.
Qed.

(** X7. Lines that contain neither [ssid=] nor [radio-name=] have no
    effect on [parse_wireless]: two texts with the same marked lines give
    the same pair of fields. *)
Theorem parse_wireless_ignores_unmarked raw1 raw2 :
  (∀ l, contains (py "ssid=") l = true ∨ contains (py "radio-name=") l = true →
        l ∈ splitlines raw1 ↔ l ∈ splitlines raw2) →
  parse_wireless raw1 = parse_wireless raw2.
Proof.
  intros H. apply parse_wireless_marked_lines. intros l Hm. apply H.
  unfold marked in Hm. by apply orb_true_iff in Hm.
Qed.

Lemma parse_wireless_ignores_unmarked_witness :
  parse_wireless (py "flags: X" ++ [LF] ++ py "ssid=lab" ++ [LF] ++ py "mtu=1500")
  = parse_wireless (py "ssid=lab").
Proof.
  apply parse_wireless_ignores_unmarked. intros l Hl.
  vm_compute splitlines. rewrite !elem_of_cons, !elem_of_nil.
  split; [|tauto]. intros [-> | [-> | [-> | []]]]; [|by left|];
    vm_compute in Hl; destruct Hl; discriminate.
Defined.

Lemma fallback_lines_marked raw l :
  marked l = true →
  l ∈ splitlines (concat ((λ l, LF :: l) <$>
                    filter (λ l, marked l = true) (splitlines raw)))
  ↔ l ∈ splitlines raw.
Proof.
  intros Hm. rewrite (splitlines_marked raw). cbn zeta.
  assert (Hk : l ∈ filter (λ l, marked l = true) (splitlines raw)
               ↔ l ∈ splitlines raw).
  { rewrite list_elem_of_filter. tauto. }
  destruct (filter _ (splitlines raw)) as [|k ks] eqn:E.
  - rewrite <- Hk. done.
  - rewrite <- Hk, elem_of_cons. split; [|by right].
    intros [-> | ?]; [by vm_compute in Hm | done].
Qed.

Section ExportExtras.
Context {World : Type}.
Variable remote : World → call → result (str * str) * World.
Context {Seconds : Type}.
Variable time_time : World → Seconds.
Variable round_diff : Seconds → Seconds → Seconds.

(** X8. Filtering the export to its marked lines loses nothing: when
    the export fallback runs, the record's wireless fields are what
    [parse_wireless] gives on the whole export text. *)
Theorem export_filter_lossless addr st user pwd outputs e st1 :
  try_credentials remote addr st
    = (Ok (Some (user, pwd), outputs, e), st1) →
  outputs !! py "wireless" = Some [] →
  ∃ rec st2,
    process_ip remote time_time round_diff addr st = (Ok rec, st2)
    ∧ parse_wireless (export_text remote addr user pwd st1)
      = Ok (ssids rec, radio_names rec).
Proof.
  intros Htc Hw.
  destruct (process_ip_authenticated remote time_time round_diff addr st
              user pwd outputs e st1 [] Htc)
    as (identity & ss & rs & _ & Hpw & Hp).
  { by rewrite Hw. }
  cbn [truthy] in Hpw, Hp. eexists _, _. split; [exact Hp|].
  cbn [ssids radio_names]. rewrite <- Hpw. symmetry.
  apply parse_wireless_marked_lines. intros l Hm.
  unfold fallback_text. by apply fallback_lines_marked.
Qed.
End ExportExtras.

Lemma export_filter_lossless_witness :
  ∃ rec st2,
    process_ip export_only_device still_clock nat_diff SAMPLE_IP (State () [])
      = (Ok rec, st2)
    ∧ Ok (ssids rec, radio_names rec) = Ok (py "foo", py "abc").
Proof.
  destruct (export_filter_lossless export_only_device still_clock nat_diff
              SAMPLE_IP (State () []) (py "admin") (py "Admin")
              (probe_outputs (py "name: R1") []) []
              (State ()
                 [identity_call SAMPLE_IP (py "admin", py "kol5ara");
                  identity_call SAMPLE_IP (py "admin", py "Admin");
                  Call SAMPLE_IP (py "admin") (py "Admin") COMMAND_WIRELESS;
                  Call SAMPLE_IP (py "admin") (py "Admin")
                    COMMAND_WIRELESS_ALT])
              eq_refl eq_refl)
    as (rec & st2 & Hp & Hpw).
  exists rec, st2. split; [exact Hp|]. rewrite <- Hpw. reflexivity.
Defined.

Lemma join_Forall (P : N → Prop) sep (l : list str) :
  Forall P sep → Forall (Forall P) l → Forall P (join sep l).
Proof.
  intros Hsep. induction 1 as [|x l Hx Hl IH]; [constructor|].
  destruct l as [|y l]; [done|].
  change (join sep (x :: y :: l)) with (x ++ sep ++ join sep (y :: l)).
  by repeat (apply Forall_app; split).
Qed.

Lemma join_nil_iff sep (l : list str) :
  Forall (λ x, x ≠ []) l → join sep l = [] ↔ l = [].
Proof.
  intros Hl. split; [|by intros ->]. intros Hj.
  destruct l as [|x l]; [done|]. by apply join_nonempty in Hj.
Qed.

Lemma serialised_tokens (marker : str) (s : gset str) (raw : str) :
  (∀ t, t ∈ s ↔ tokens_of marker (quoted_or_bare marker) (splitlines raw) t) →
  Forall (λ c, c ≠ QUOTE ∧ isspace c = false) (join (py ";") (sorted s))
  ∧ (join (py ";") (sorted s) = [] ↔
     ∀ t, ¬ tokens_of marker (quoted_or_bare marker) (splitlines raw) t).
Proof.
  intros Hs.
  assert (Htok : ∀ t, t ∈ sorted s →
            t ≠ [] ∧ Forall (λ c, c ≠ QUOTE ∧ isspace c = false) t).
  { intros t Ht. apply sorted_elem_of, Hs in Ht as (l & _ & _ & Hl).
    destruct (search_quoted_or_bare_inv _ _ _ Hl) as (t' & [= <-] & Hne & Hall).
    split; [done|]. eapply Forall_impl; [exact Hall|]. intros c Hc.
    unfold not_quote_space in Hc. apply negb_true_iff, orb_false_iff in Hc.
    destruct Hc as [Hq Hsp]. split; [by apply N.eqb_neq | done]. }
  split.
  - apply join_Forall.
    + by repeat constructor.
    + apply Forall_forall. intros t Ht. by apply Htok.
  - rewrite join_nil_iff.
    + split.
      * intros Hnil t Ht. apply Hs, sorted_elem_of in Ht.
        rewrite Hnil in Ht. by apply elem_of_nil in Ht.
      * intros Hno. destruct (sorted s) as [|t ts] eqn:E; [done|].
        exfalso. apply (Hno t), Hs, sorted_elem_of. rewrite E. by left.
    + apply Forall_forall. intros t Ht. by apply Htok.
Qed.

(** X9. Neither field returned by [parse_wireless] contains white space
    or a double quote, and a field is empty exactly when no line
    contributes a token for its marker. *)
Theorem parse_wireless_fields_clean raw ssids radios :
  parse_wireless raw = Ok (ssids, radios) →
  Forall (λ c, c ≠ QUOTE ∧ isspace c = false) ssids
  ∧ Forall (λ c, c ≠ QUOTE ∧ isspace c = false) radios
  ∧ (ssids = [] ↔
     ∀ t, ¬ tokens_of (py "ssid=") RE_SSID (splitlines raw) t)
  ∧ (radios = [] ↔
     ∀ t, ¬ tokens_of (py "radio-name=") RE_RADIO_NAME (splitlines raw) t).
Proof.
  intros Hpw. destruct (parse_wireless_sets raw) as (s & r & Heq & Hs & Hr).
  rewrite Heq in Hpw. injection Hpw as <- <-.
  destruct (serialised_tokens (py "ssid=") s raw Hs) as [H1 H2].
  destruct (serialised_tokens (py "radio-name=") r raw Hr) as [H3 H4].
  done.
Qed.

Lemma parse_wireless_fields_clean_witness :
  Forall (λ c, c ≠ QUOTE ∧ isspace c = false) (py "Net-A;Net-B").
Proof.
  apply (parse_wireless_fields_clean
           (py "ssid=" ++ [QUOTE] ++ py "Net-B" ++ [QUOTE; LF]
              ++ py "ssid=Net-A")
           (py "Net-A;Net-B") []).
  reflexivity.
Defined.

(** [strip] *)

Lemma lstrip_by_snoc p x c :
  p c = false → lstrip_by p (x ++ [c]) = lstrip_by p x ++ [c].
Proof.
  intros Hc. induction x as [|d x IH]; simpl; [by rewrite Hc|].
  by destruct (p d).
Qed.

Lemma lstrip_by_head p s c r : lstrip_by p s = c :: r → p c = false.
Proof.
  induction s as [|d s IH]; simpl; [done|].
  destruct (p d) eqn:Hd; [done|]. by intros [= <- _].
Qed.

Lemma strip_by_shape p s :
  strip_by p s =
    match lstrip_by p s with
    | [] => []
    | c :: t => c :: reverse (lstrip_by p (reverse t))
    end.
Proof.
  unfold strip_by. destruct (lstrip_by p s) as [|c t] eqn:E; [done|].
  rewrite reverse_cons, lstrip_by_snoc by by apply (lstrip_by_head p s c t).
  by rewrite reverse_app.
Qed.

Lemma strip_by_idemp p s : strip_by p (strip_by p s) = strip_by p s.
Proof.
  rewrite (strip_by_shape p s).
  destruct (lstrip_by p s) as [|c t] eqn:E; [done|].
  pose proof (lstrip_by_head p s c t E) as Hc.
  rewrite strip_by_shape. simpl. rewrite Hc.
  rewrite reverse_involutive. f_equal. f_equal.
  destruct (lstrip_by p (reverse t)) as [|d u] eqn:E'; [done|].
  simpl. by rewrite (lstrip_by_head p (reverse t) d u E').
Qed.

Lemma Forall_lstrip_by (P : N → Prop) p s :
  Forall P s → Forall P (lstrip_by p s).
Proof.
  induction 1 as [|c s Hc Hs IH]; simpl; [done|].
  destruct (p c); [done | by constructor].
Qed.

Lemma Forall_strip_by (P : N → Prop) p s :
  Forall P s → Forall P (strip_by p s).
Proof.
  intros H. unfold strip_by.
  by apply Forall_reverse, Forall_lstrip_by, Forall_reverse, Forall_lstrip_by.
Qed.

Lemma islinebreak_isspace c : islinebreak c = true → isspace c = true.
Proof.
  unfold islinebreak, isspace.
  rewrite !orb_true_iff, !andb_true_iff, !N.leb_le, !N.eqb_eq. lia.
Qed.

Lemma startswith_drop p s :
  startswith p s = true → s = p ++ drop (length p) s.
Proof.
  intros H. apply startswith_spec in H as [t ->]. by rewrite drop_app_length.
Qed.

Lemma partition_sound sep s a b :
  partition sep s = Some (a, b) → s = a ++ sep ++ b.
Proof.
  revert a b. induction s as [|c s IH]; intros a b; rewrite partition_unfold.
  - destruct (startswith sep []) eqn:Hs; [|done]. intros [= <- <-].
    by apply startswith_drop.
  - destruct (startswith sep (c :: s)) eqn:Hs.
    + intros [= <- <-]. by apply startswith_drop.
    + destruct (partition sep s) as [[a' b']|] eqn:E; [|done].
      intros [= <- <-]. by rewrite (IH a' b' eq_refl).
Qed.

Lemma parse_identity_loop_inv lines v :
  parse_identity_loop lines = Some (Ok v) →
  ∃ line a b, line ∈ lines ∧ line = a ++ py "name:" ++ b ∧ v = strip b.
Proof.
  induction lines as [|line rest IH]; cbn [parse_identity_loop]; [done|].
  destruct (contains (py "name:") line) eqn:Hc.
  - unfold split1.
    destruct (partition_contains _ _ Hc) as [[a b] Hp]. rewrite Hp.
    intros [= <-]. exists line, a, b. split; [by left|].
    split; [by apply partition_sound | done].
  - intros H. destruct (IH H) as (l & a & b & Hl & Heq & Hv).
    exists l, a, b. split; [by right | done].
Qed.

(** X10. The identity [parse_identity] returns has no white space at
    either end and no line break in it: it is one trimmed line. *)
Theorem parse_identity_trimmed raw v :
  parse_identity raw = Ok v → strip v = v ∧ nobreak v.
Proof.
  unfold parse_identity.
  destruct (parse_identity_loop_ok (splitlines raw)) as [Hnone | [v' Hsome]].
  - rewrite Hnone.
    destruct (Re.search RE_SET_NAME raw) as [g|] eqn:E.
    + apply search_set_name_inv in E as (_ & t & -> & _ & Ht). simpl.
      intros [= <-].
      assert (Hns : Forall (λ c, isspace c = false) t).
      { eapply Forall_impl; [exact Ht|]. intros c Hc. unfold not_space in Hc.
        by apply negb_true_iff in Hc. }
      assert (strip t = t) as -> by by apply strip_by_id.
      assert (Hq : Forall (λ c, isspace c = false) (strip_quotes t)).
      { by apply Forall_strip_by. }
      split; [by apply strip_by_id|].
      eapply Forall_impl; [exact Hq|]. intros c Hc.
      destruct (islinebreak c) eqn:Hb; [|done].
      apply islinebreak_isspace in Hb. congruence.
    + intros [= <-]. split; [done | constructor].
  - rewrite Hsome. intros [= ->].
    apply parse_identity_loop_inv in Hsome as (line & a & b & Hl & Heq & ->).
    split; [apply strip_by_idemp|]. apply Forall_strip_by.
    apply splitlines_nobreak in Hl. subst line.
    apply Forall_app in Hl as [_ Hl]. by apply Forall_app in Hl as [_ Hl].
Qed.

Lemma parse_identity_trimmed_witness :
  strip (py "Core Router") = py "Core Router" ∧ nobreak (py "Core Router").
Proof.
  apply (parse_identity_trimmed
           (py "flags: X" ++ [LF] ++ py "  name: Core Router  ")).
  reflexivity.
Defined.

(** * Further properties: address loading, reports and merge back *)

Section IpLikeProperties.
Variable isdigit : N → bool.

Lemma ip_like_at b :
  Re.match_at (RE_IP_LIKE isdigit) b None accept =
    Re.plus_from isdigit b (λ s1,
      if startswith (py ".") s1 then
        Re.plus_from isdigit (drop 1 s1) (λ s2,
          if startswith (py ".") s2 then
            Re.plus_from isdigit (drop 1 s2) (λ s3,
              if startswith (py ".") s3 then
                Re.plus_from isdigit (drop 1 s3) (λ s',
                  Some (Some (take (length b - length s') b)))
              else None)
          else None)
      else None).
Proof. reflexivity. Qed.

Lemma ip_like_at_inv b g :
  Re.match_at (RE_IP_LIKE isdigit) b None accept = Some g →
  ∃ a rest, g = Some a ∧ b = a ++ rest ∧ dotted_quad isdigit a.
Proof.
  rewrite ip_like_at. intros H.
  apply plus_from_inv in H as (d1 & s1 & -> & Hd1 & Ha1 & H).
  destruct (startswith (py ".") s1) eqn:Hs1; [|done].
  apply startswith_drop in Hs1. change (length (py ".")) with 1 in Hs1.
  apply plus_from_inv in H as (d2 & s2 & Hs2' & Hd2 & Ha2 & H).
  destruct (startswith (py ".") s2) eqn:Hs2; [|done].
  apply startswith_drop in Hs2. change (length (py ".")) with 1 in Hs2.
  apply plus_from_inv in H as (d3 & s3 & Hs3' & Hd3 & Ha3 & H).
  destruct (startswith (py ".") s3) eqn:Hs3; [|done].
  apply startswith_drop in Hs3. change (length (py ".")) with 1 in Hs3.
  apply plus_from_inv in H as (d4 & s' & Hs4' & Hd4 & Ha4 & H).
  assert (Hb : d1 ++ s1
               = (d1 ++ py "." ++ d2 ++ py "." ++ d3 ++ py "." ++ d4) ++ s').
  { rewrite Hs1, Hs2', Hs2, Hs3', Hs3, Hs4'. by rewrite <- !app_assoc. }
  rewrite Hb in H. rewrite take_length_app_sub in H. injection H as <-.
  eexists _, s'. split; [done|]. split; [exact Hb|].
  constructor; try done. by repeat (apply Forall_app; split).
Qed.

Lemma ip_like_inv val a :
  ip_like isdigit val = Some a →
  dotted_quad isdigit a ∧ ∃ pre post, val = pre ++ a ++ post.
Proof.
  unfold ip_like.
  destruct (Re.search (RE_IP_LIKE isdigit) val) as [[t|]|] eqn:E; try done.
  intros [= ->]. apply search_inv in E as (pre & b & -> & E).
  apply ip_like_at_inv in E as (a' & rest & [= <-] & -> & Hq). eauto.
Qed.

Lemma dotted_quad_line a :
  (∀ c, isdigit c = true → islinebreak c = false) →
  dotted_quad isdigit a → a ≠ [] ∧ nobreak a.
Proof.
  intros Hd [d1 d2 d3 d4 H1 H2 H3 H4 Hall]. split; [by destruct d1|].
  assert (Hnb : ∀ d, Forall (λ c, isdigit c = true) d → nobreak d).
  { intros d Hd'. eapply Forall_impl; [exact Hd'|]. exact Hd. }
  apply Forall_app in Hall as [Hd1 Hall].
  apply Forall_app in Hall as [Hd2 Hall].
  apply Forall_app in Hall as [Hd3 Hd4].
  unfold nobreak.
  repeat (apply Forall_app; split); try (by apply Hnb);
    by repeat constructor.
Qed.

Lemma load_ip_list_member_quad ip_address_ok series a :
  a ∈ load_ip_list (ip_like isdigit) ip_address_ok series →
  dotted_quad isdigit a.
Proof.
  intros Hin.
  destruct (load_ip_list_from (ip_like isdigit) ip_address_ok series []
              NoDup_nil_2) as [_ Hmem].
  apply Hmem in Hin as [Hin | (val & _ & Htok & _)];
    [by apply elem_of_nil in Hin|].
  by apply ip_like_inv in Htok as [Hq _].
Qed.

(** X11. Every address [load_ip_list] returns is four runs of digits
    separated by dots, cut out of one of the cells: text around the
    token never reaches the prober. *)
Theorem loaded_addresses_are_tokens ip_address_ok series a :
  a ∈ load_ip_list (ip_like isdigit) ip_address_ok series →
  dotted_quad isdigit a
  ∧ ip_address_ok a = true
  ∧ ∃ val pre post, val ∈ series ∧ val = pre ++ a ++ post.
Proof.
  intros Hin.
  destruct (load_ip_list_from (ip_like isdigit) ip_address_ok series []
              NoDup_nil_2) as [_ Hmem].
  apply Hmem in Hin as [Hin | (val & Hval & Htok & Hok)];
    [by apply elem_of_nil in Hin|].
  apply ip_like_inv in Htok as (Hq & pre & post & ->).
  split; [done|]. split; [done|]. eauto.
Qed.
End IpLikeProperties.

Lemma loaded_addresses_are_tokens_witness :
  dotted_quad ascii_digit (py "10.0.0.7").
Proof.
  apply (loaded_addresses_are_tokens ascii_digit (λ _, true)
           [py "n/a"; py "router at 10.0.0.7 (roof)"] (py "10.0.0.7")).
  vm_compute. by left.
Defined.

Section LoadOrder.
Variable ip_like_token : str → option str.
Variable ip_address_ok : str → bool.

Lemma load_ip_list_grows (series acc : list str) :
  let step := λ (ips : list str) (val : str),
    match ip_like_token val with
    | None => ips
    | Some candidate =>
        if ip_address_ok candidate then
          if decide (candidate ∈ ips) then ips else ips ++ [candidate]
        else ips
    end in
  ∃ more, foldl step acc series = acc ++ more.
Proof.
  intros step. revert acc.
  induction series as [|val rest IH]; intros acc; simpl.
  - exists []. by rewrite app_nil_r.
  - assert (Hstep : ∃ m, step acc val = acc ++ m).
    { unfold step. destruct (ip_like_token val) as [cand|];
        [|exists []; by rewrite app_nil_r].
      destruct (ip_address_ok cand); [|exists []; by rewrite app_nil_r].
      destruct (decide (cand ∈ acc)); [exists []; by rewrite app_nil_r|].
      by exists [cand]. }
    destruct Hstep as [m ->]. destruct (IH (acc ++ m)) as [more ->].
    exists (m ++ more). by rewrite <- app_assoc.
Qed.

(** X12. Cells further down the column never move or remove an address
    already loaded: the list for a longer column starts with the list
    for the shorter one, and what follows holds new addresses only. *)
Theorem load_ip_list_prefix_stable series1 series2 :
  ∃ more,
    load_ip_list ip_like_token ip_address_ok (series1 ++ series2)
      = load_ip_list ip_like_token ip_address_ok series1 ++ more
    ∧ ∀ a, a ∈ more →
           a ∉ load_ip_list ip_like_token ip_address_ok series1.
Proof.
  unfold load_ip_list. rewrite foldl_app.
  destruct (load_ip_list_grows series2
              (load_ip_list ip_like_token ip_address_ok series1))
    as [more Hmore].
  unfold load_ip_list in Hmore. cbn zeta in Hmore. rewrite Hmore.
  exists more. split; [done|]. intros a Ha Hin.
  destruct (load_ip_list_from ip_like_token ip_address_ok
              (series1 ++ series2) [] NoDup_nil_2) as [Hnd _].
  cbn zeta in Hnd. rewrite foldl_app, Hmore in Hnd.
  apply NoDup_app in Hnd as (_ & Hdisj & _). by apply (Hdisj a).
Qed.
End LoadOrder.

Lemma gather_imap_Forall {A B} (f : nat → A → result B) (g : B → A)
    (P : B → Prop) (l : list A) (acc : list B) :
  (∀ i a, ∃ b, f i a = Ok b ∧ g b = a ∧ P b) →
  ∃ results,
    gather (imap f l) acc = Ok (acc ++ results)
    ∧ g <$> results = l ∧ Forall P results.
Proof.
  revert f acc. induction l as [|a l IH]; intros f acc Hf.
  - exists []. by rewrite app_nil_r.
  - rewrite imap_cons. destruct (Hf 0 a) as (b & Hb & Hg & HP).
    cbn [gather]. rewrite Hb.
    destruct (IH (f ∘ S) (acc ++ [b])) as (results & -> & Hres & Hall).
    { intros i a'. apply Hf. }
    exists (b :: results). rewrite <- app_assoc. split; [done|].
    split; [by rewrite fmap_cons, Hg, Hres | by constructor].
Qed.

Lemma filter_partition_Permutation {A} (P : A → Prop)
    `{∀ x, Decision (P x)} (l : list A) :
  filter P l ++ filter (λ x, ¬ P x) l ≡ₚ l.
Proof.
  induction l as [|x l IH]; [done|].
  rewrite !filter_cons. destruct (decide (P x)), (decide (¬ P x)); try done.
  - simpl. by rewrite IH.
  - rewrite <- Permutation_middle. by rewrite IH.
Qed.

Section MainProperties.
Context {World : Type}.
Variable remote : World → call → result (str * str) * World.
Context {Seconds : Type}.
Variable time_time : World → Seconds.
Variable round_diff : Seconds → Seconds → Seconds.
Variable ip_like_token : str → option str.
Variable ip_address_ok : str → bool.

Lemma main_results_records series view :
  ∃ results,
    main_results remote time_time round_diff ip_like_token ip_address_ok
      series view = Ok results
    ∧ ip <$> results = load_ip_list ip_like_token ip_address_ok series
    ∧ Forall (λ r, status r = py "OK" ∨ status r = py "FAIL") results.
Proof.
  unfold main_results, pool_map.
  destruct (gather_imap_Forall
              (λ i a, (process_ip remote time_time round_diff a
                         (State (view i) [])).1)
              ip (λ r, status r = py "OK" ∨ status r = py "FAIL")
              (load_ip_list ip_like_token ip_address_ok series) [])
    as (results & Hres & Hips & Hall); [|eauto].
  intros i a.
  destruct (process_ip_outcome remote time_time round_diff a
              (State (view i) []))
    as [(e & st1 & _ & Heq)
       | (user & pwd & x & w & st1 & identity & ss & rs
          & _ & _ & _ & _ & _ & Heq)];
    rewrite Heq; eexists; (split; [done|]); cbn; auto.
Qed.

(** X13. When no cell of the column holds a valid address, [main]
    stops with [KeyError] for the [status] column, before any sheet or
    failed list is written: the frame built from no record has no
    column. *)
Theorem main_without_addresses series view :
  (∀ val a, val ∈ series → ip_like_token val = Some a →
            ip_address_ok a = false) →
  main remote time_time round_diff ip_like_token ip_address_ok series view
    = Raised (Exn OtherException (py "'status'")).
Proof.
  intros Hnone. unfold main.
  destruct (main_results_records series view) as (results & -> & Hips & _).
  assert (Hload : load_ip_list ip_like_token ip_address_ok series = []).
  { destruct (load_ip_list_from ip_like_token ip_address_ok series []
                NoDup_nil_2) as [_ Hmem].
    apply elem_of_nil_inv. intros a Ha.
    apply Hmem in Ha as [Ha | (val & Hval & Htok & Hok)];
      [by apply elem_of_nil in Ha|].
    rewrite (Hnone val a Hval Htok) in Hok. done. }
  rewrite Hload in Hips. apply fmap_nil_inv in Hips as ->. done.
Qed.

End MainProperties.

Lemma main_without_addresses_witness :
  main rejecting_device still_clock nat_diff (ip_like ascii_digit) (λ _, true)
    [py "n/a"; py "see sheet 2"] (λ _, ())
  = Raised (Exn OtherException (py "'status'")).
Proof.
  apply main_without_addresses. intros val a Hval Htok.
  rewrite !elem_of_cons, elem_of_nil in Hval.
  destruct Hval as [-> | [-> | []]]; vm_compute in Htok; discriminate Htok.
Defined.


Section FailedList.
Context {World : Type}.
Variable remote : World → call → result (str * str) * World.
Context {Seconds : Type}.
Variable time_time : World → Seconds.
Variable round_diff : Seconds → Seconds → Seconds.
Variable isdigit : N → bool.
Variable ip_address_ok : str → bool.

(** X15. The failed-address list reads back line by line: split into
    lines, the text [main] writes is the list of addresses of the
    [failed] sheet, in order. (No digit is a line break.) *)
Theorem failed_list_round_trip series view report txt :
  (∀ c, isdigit c = true → islinebreak c = false) →
  main remote time_time round_diff (ip_like isdigit) ip_address_ok
    series view = Ok report →
  failed_list_txt report = Some txt →
  splitlines txt = ip <$> sheet_failed report.
Proof.
  intros Hd Hmain Htxt. unfold main in Hmain.
  destruct (main_results_records remote time_time round_diff
              (ip_like isdigit) ip_address_ok series view)
    as (results & Hres & Hips & _).
  rewrite Hres in Hmain. cbn [result_bind] in Hmain.
  destruct results as [|r0 rest]; [done|]. cbn [main_report] in Hmain.
  injection Hmain as <-.
  cbn [failed_list_txt sheet_failed] in *.
  set (results := r0 :: rest) in *.
  assert (Hlines : Forall (λ a, a ≠ [] ∧ nobreak a)
                     (ip <$> filter (λ r, status r ≠ py "OK") results)).
  { apply Forall_fmap, Forall_forall. intros r Hr.
    apply list_elem_of_filter in Hr as [_ Hr]. simpl.
    apply (dotted_quad_line isdigit); [done|].
    apply (load_ip_list_member_quad isdigit ip_address_ok series).
    rewrite <- Hips. by apply list_elem_of_fmap_2. }
  destruct (ip <$> filter (λ r, status r ≠ py "OK") results)
    as [|f fs] eqn:E; [done|].
  injection Htxt as <-.
  change (splitlines (join [LF] (f :: fs)) = f :: fs). apply splitlines_join.
  - eapply Forall_impl; [exact Hlines|]. by intros a [_ ?].
  - eapply Forall_impl; [exact Hlines|]. by intros a [? _].
Qed.
End FailedList.

Lemma failed_list_round_trip_witness :
  ∃ (report : Report nat) txt,
    main rejecting_device still_clock nat_diff (ip_like ascii_digit)
      (λ _, true) [py "10.0.0.7 roof"; py "10.0.0.9"] (λ _, ()) = Ok report
    ∧ failed_list_txt report = Some txt
    ∧ splitlines txt = ip <$> sheet_failed report.
Proof.
  eexists _, _. split; [vm_compute; reflexivity|]. split; [reflexivity|].
  apply (failed_list_round_trip rejecting_device still_clock nat_diff
           ascii_digit (λ _, true) [py "10.0.0.7 roof"; py "10.0.0.9"]
           (λ _, ())).
  - intros c Hc. unfold ascii_digit in Hc. unfold islinebreak.
    apply andb_true_iff in Hc as [H1 H2].
    apply N.leb_le in H1. apply N.leb_le in H2.
    rewrite !orb_false_iff, !andb_false_iff, !N.leb_gt, !N.eqb_neq. lia.
  - vm_compute. reflexivity.
  - reflexivity.
Defined.

(** * Further properties: merge back into the workbook *)

Section MergeProperties.
Context {Seconds Cell : Type}.
Variable text_cell : str → Cell.
Variable ip_like_token : str → option str.

Lemma result_map_snoc (results : list (DeviceRecord Seconds)) r :
  result_map (results ++ [r]) = <[ip r := r]> (result_map results).
Proof. unfold result_map. by rewrite foldl_app. Qed.

Lemma result_map_lookup (results : list (DeviceRecord Seconds)) a :
  result_map results !! a = last (filter (λ r, ip r = a) results).
Proof.
  induction results as [|r results IH] using rev_ind; [done|].
  rewrite result_map_snoc, filter_app, filter_cons, filter_nil.
  destruct (decide (ip r = a)) as [<- | Hne].
  - by rewrite lookup_insert_eq, last_snoc.
  - by rewrite lookup_insert_ne, app_nil_r.
Qed.

End MergeProperties.


(** * Further properties: column letters *)

Section ColumnLetterProperties.
Variable str_upper : str → str.

(** X17. With [str.upper] acting on ASCII text as it does, a single
    letter gives its place in the alphabet, from 0 to 25, in either
    case; a single ASCII character before [A] gives a negative index;
    ASCII text of any other length makes [ord] raise [TypeError], so
    columns beyond [Z] cannot be named. *)
Theorem column_letter_to_index_ascii :
  (∀ s, Forall (λ c, (c < 128)%N) s → str_upper s = ascii_upper <$> s) →
  (∀ c, (65 ≤ c ≤ 90)%N →
        column_letter_to_index str_upper [c] = Ok (Z.of_N c - 65)%Z
        ∧ column_letter_to_index str_upper [(c + 32)%N]
          = Ok (Z.of_N c - 65)%Z
        ∧ (0 ≤ Z.of_N c - 65 < 26)%Z)
  ∧ (∀ c, (c < 65)%N →
          column_letter_to_index str_upper [c] = Ok (Z.of_N c - 65)%Z
          ∧ (Z.of_N c - 65 < 0)%Z)
  ∧ (∀ letter, Forall (λ c, (c < 128)%N) letter → length letter ≠ 1 →
               ∃ e, column_letter_to_index str_upper letter = Raised e
                    ∧ exn_cls e = TypeError).
Proof.
  intros Hup. split; [|split].
  - intros c Hc. unfold column_letter_to_index.
    rewrite !Hup by (repeat constructor; lia). cbn [fmap list_fmap].
    unfold ascii_upper.
    assert ((97 <=? c)%N && (c <=? 122)%N = false) as ->.
    { apply andb_false_iff. left. apply N.leb_gt. lia. }
    assert ((97 <=? c + 32)%N && (c + 32 <=? 122)%N = true) as ->.
    { apply andb_true_iff. split; apply N.leb_le; lia. }
    replace (c + 32 - 32)%N with c by lia. cbn. split; [done|].
    split; [done | lia].
  - intros c Hc. unfold column_letter_to_index.
    rewrite Hup by (repeat constructor; lia). cbn [fmap list_fmap].
    unfold ascii_upper.
    assert ((97 <=? c)%N && (c <=? 122)%N = false) as ->.
    { apply andb_false_iff. left. apply N.leb_gt. lia. }
    cbn. split; [done | lia].
  - intros letter Hascii Hlen. unfold column_letter_to_index.
    rewrite Hup by done.
    destruct letter as [|c [|d letter]]; [| done |]; cbn; eauto.
Qed.
End ColumnLetterProperties.

Lemma column_letter_to_index_ascii_witness :
  column_letter_to_index (fmap ascii_upper) (py "k") = Ok 10%Z
  ∧ ∃ e, column_letter_to_index (fmap ascii_upper) (py "AA") = Raised e
         ∧ exn_cls e = TypeError.
Proof.
  destruct (column_letter_to_index_ascii (fmap ascii_upper)
              ltac:(done)) as (Hletter & _ & Hlong).
  split.
  - apply (Hletter 75%N). lia.
  - apply Hlong; [by repeat constructor | done].
Defined.

(** * Further properties: phone numbers *)

Lemma filter_all {A} (P : A → Prop) `{∀ x, Decision (P x)} (l : list A) :
  Forall P l → filter P l = l.
Proof.
  induction 1 as [|x l Hx _ IH]; [done|].
  by rewrite filter_cons_True, IH.
Qed.

Lemma lstrip_by_keep p c s : p c = false → lstrip_by p (c :: s) = c :: s.
Proof. intros H. simpl. by rewrite H. Qed.

Lemma normalize_phone_number_shape raw default_country :
  raw ≠ [] →
  startswith (py "+") default_country = true →
  Forall (λ c, digit_or_plus c = true) default_country →
  startswith (py "+") (normalize_phone_number raw default_country) = true
  ∧ Forall (λ c, digit_or_plus c = true)
      (normalize_phone_number raw default_country).
Proof.
  intros Hraw Hplus Hdc. unfold normalize_phone_number.
  apply truthy_true in Hraw. rewrite Hraw. cbn zeta.
  set (s := filter (λ c, digit_or_plus c = true) raw).
  assert (Hs : Forall (λ c, digit_or_plus c = true) s).
  { apply Forall_forall. intros c Hc.
    by apply list_elem_of_filter in Hc as [? _]. }
  destruct (startswith (py "+") s) eqn:E1; [done|].
  destruct (startswith (py "00") s) eqn:E2.
  - split; [done|]. constructor; [done|]. by apply Forall_drop.
  - split.
    + apply startswith_spec in Hplus as [t ->]. apply startswith_spec.
      eexists. by rewrite <- app_assoc.
    + apply Forall_app. split; [done|]. by apply Forall_lstrip_by.
Qed.

(** X18. With a country code that is a plus sign followed by digits, the
    number returned for a non-empty text starts with a plus sign and holds
    nothing but digits and plus signs; normalising it again returns it
    unchanged. *)
Theorem normalize_phone_number_idempotent raw default_country :
  startswith (py "+") default_country = true →
  Forall (λ c, digit_or_plus c = true) default_country →
  (raw ≠ [] →
     startswith (py "+") (normalize_phone_number raw default_country) = true
     ∧ Forall (λ c, digit_or_plus c = true)
         (normalize_phone_number raw default_country))
  ∧ normalize_phone_number (normalize_phone_number raw default_country)
      default_country
    = normalize_phone_number raw default_country.
Proof.
  intros Hplus Hdc. split; [intros Hraw; by apply normalize_phone_number_shape|].
  destruct raw as [|c raw]; [done|].
  destruct (normalize_phone_number_shape (c :: raw) default_country)
    as [Hs Hall]; [done..|].
  set (r := normalize_phone_number (c :: raw) default_country) in *.
  unfold normalize_phone_number at 1.
  assert (truthy r = true) as ->.
  { apply truthy_true. intros Hr. by rewrite Hr in Hs. }
  cbn zeta. rewrite (filter_all _ r Hall). by rewrite Hs.
Qed.

Lemma normalize_phone_number_idempotent_witness :
  normalize_phone_number
    (normalize_phone_number (py "03 123-456") DEFAULT_COUNTRY) DEFAULT_COUNTRY
  = normalize_phone_number (py "03 123-456") DEFAULT_COUNTRY.
Proof.
  apply normalize_phone_number_idempotent; [reflexivity|].
  by repeat constructor.
Defined.

(** X19. A national number written with or without one leading zero,
    the same number after [00] and the country code, and the same number
    after a plus sign and the country code all normalise to the same
    text. *)
Theorem normalize_phone_number_notations cc d n :
  Forall (λ c, ascii_digit c = true) cc →
  Forall (λ c, ascii_digit c = true) (d :: n) → d ≠ 48%N →
  let e164 := py "+" ++ cc ++ d :: n in
  normalize_phone_number (d :: n) (py "+" ++ cc) = e164
  ∧ normalize_phone_number (py "0" ++ d :: n) (py "+" ++ cc) = e164
  ∧ normalize_phone_number (py "00" ++ cc ++ d :: n) (py "+" ++ cc) = e164
  ∧ normalize_phone_number (py "+" ++ cc ++ d :: n) (py "+" ++ cc) = e164.
Proof.
  intros Hcc Hn Hd e164.
  assert (Hdop : ∀ l, Forall (λ c, ascii_digit c = true) l →
                      Forall (λ c, digit_or_plus c = true) l).
  { intros l Hl. eapply Forall_impl; [exact Hl|]. intros c Hc.
    unfold digit_or_plus. by rewrite Hc. }
  assert (H43 : (43 =? d)%N = false).
  { apply Forall_cons in Hn as [Hdd _]. unfold ascii_digit in Hdd.
    apply andb_true_iff in Hdd as [H1 _]. apply N.leb_le in H1.
    apply N.eqb_neq. lia. }
  assert (H48 : (48 =? d)%N = false) by (apply N.eqb_neq; congruence).
  subst e164. unfold normalize_phone_number.
  change (py "+") with [43%N]. change (py "0") with [48%N].
  change (py "00") with [48%N; 48%N].
  repeat split.
  - rewrite (filter_all _ (d :: n)) by by apply Hdop.
    cbn [truthy startswith lstrip_by app]. by rewrite H43, H48.
  - cbn [app]. rewrite (filter_all _ (48%N :: d :: n))
      by (constructor; [done | by apply Hdop]).
    cbn [truthy startswith lstrip_by].
    change (43 =? 48)%N with false. change (48 =? 48)%N with true.
    cbn [andb]. by rewrite H48.
  - cbn [app]. rewrite (filter_all _ (48%N :: 48%N :: cc ++ d :: n)).
    + done.
    + repeat (constructor; [done|]). apply Forall_app. split; by apply Hdop.
  - cbn [app]. rewrite (filter_all _ (43%N :: cc ++ d :: n)).
    + done.
    + constructor; [done|]. apply Forall_app. split; by apply Hdop.
Qed.

Lemma normalize_phone_number_notations_witness :
  normalize_phone_number (py "03123456") DEFAULT_COUNTRY = py "+9613123456"
  ∧ normalize_phone_number (py "009613123456") DEFAULT_COUNTRY
    = py "+9613123456".
Proof.
  destruct (normalize_phone_number_notations (py "961") 51%N (py "123456"))
    as (_ & H0 & H00 & _).
  - by repeat constructor.
  - by repeat constructor.
  - done.
  - split; [exact H0 | exact H00].
Defined.

(** X20. A non-empty text without any digit or plus sign, such as a dash
    left in the phone column, is turned into the bare country code. *)
Theorem normalize_phone_number_no_digit raw default_country :
  raw ≠ [] → Forall (λ c, digit_or_plus c = false) raw →
  normalize_phone_number raw default_country = default_country.
Proof.
  intros Hraw Hnone. unfold normalize_phone_number.
  apply truthy_true in Hraw. rewrite Hraw. cbn zeta.
  rewrite filter_none.
  - cbn. by rewrite app_nil_r.
  - eapply Forall_impl; [exact Hnone|]. intros c Hc. by rewrite Hc.
Qed.

Lemma normalize_phone_number_no_digit_witness :
  normalize_phone_number (py "--") DEFAULT_COUNTRY = py "+961".
Proof.
  apply normalize_phone_number_no_digit; [done|]. by repeat constructor.
Defined.
